(** * Giftly: reservation / contribution engine, presence and event fan-out

    A shallow embedding of the server side of the wishlist application:
    - [server/src/services/ItemService.ts]   (create, reserve, unreserve, delete, hype)
    - [server/src/routes/items.ts]           (HTTP handlers in front of the service)
    - [server/src/routes/contributions.ts]   (the contribution transaction)
    - [server/src/routes/wishlists.ts]       (GET /:id with spoiler protection)
    - [server/src/index.ts]                  (socket.io presence handlers)

    The persistence layer (Prisma over PostgreSQL) is embedded as a record of
    finite maps with the handful of primitives the code calls; the socket.io
    in-memory adapter is embedded as its two maps [rooms] and [sids].
    Requests are handled one at a time: the embedding is sequential, each
    primitive is one step.  Monetary amounts (DECIMAL(65,30) in the schema)
    are integers counted in the smallest unit of the column. *)

From Stdlib Require Import ZArith String List Lia.
From stdpp Require Import base option gmap strings list fin_maps fin_sets.

Local Open Scope string_scope.

(** ** JavaScript values the handlers test for truthiness *)

Module Js.

(** [!s] on a string: only the empty string is falsy. *)
Definition truthy (s : string) : bool := negb (String.eqb s "").

(** [a || b] where [a] and [b] are strings or [undefined]. *)
Definition or_else (a b : option string) : option string :=
  match a with
  | Some s => if truthy s then Some s else b
  | None => b
  end.

(** [!v] for [v : string | undefined]. *)
Definition falsy (v : option string) : bool :=
  match v with
  | Some s => negb (truthy s)
  | None => true
  end.

(** [a === b] where [a] may be [undefined] and [b] is a string. *)
Definition strict_eq (a : option string) (b : string) : bool :=
  bool_decide (a = Some b).

End Js.

(** ** The store *)

Module Prisma.

(** Table "Item".  The primary key is the key of the map [items]; columns
    that no handler below reads or writes (url, imageUrl, currency, story,
    stolenFrom, isFulfilled, timestamps) are left out. *)
Record Item := mkItem {
  wishlistId : string;
  title : string;
  price : option Z;
  isReserved : bool;
  reservedBy : option string;
  collectedAmount : Z;
  hypeCount : Z;
}.

(** Table "Wishlist". *)
Record Wishlist := mkWishlist {
  ownerId : string;
  isPublic : bool;
}.

(** Table "Contribution" (generated id and timestamp left out). *)
Record Contribution := mkContribution {
  c_itemId : string;
  c_userId : option string;
  contributorName : string;
  amount : Z;
  message : option string;
}.

Record Store := mkStore {
  items : gmap string Item;
  wishlists : gmap string Wishlist;
  contributions : list Contribution;
}.

Definition empty_store : Store :=
  {| items := ∅; wishlists := ∅; contributions := [] |}.

(** The [where] clauses used on items: always the primary key, optionally
    the reservation flag and the holder. *)
Record ItemWhere := mkWhere {
  w_id : string;
  w_isReserved : option bool;
  w_reservedBy : option string;
}.

(** The [data] clauses used on items.  A field that is [None] is not
    written; [d_reservedBy = Some None] writes SQL NULL. *)
Record ItemData := mkData {
  d_isReserved : option bool;
  d_reservedBy : option (option string);
  d_collectedAmount_increment : option Z;
  d_hypeCount_increment : option Z;
}.

Definition no_data : ItemData :=
  {| d_isReserved := None; d_reservedBy := None;
     d_collectedAmount_increment := None; d_hypeCount_increment := None |}.

Definition matches (w : ItemWhere) (i : Item) : bool :=
  match w_isReserved w with
  | Some b => Bool.eqb (isReserved i) b
  | None => true
  end
  &&
  match w_reservedBy w with
  | Some who => bool_decide (reservedBy i = Some who)
  | None => true
  end.

Definition apply_data (d : ItemData) (i : Item) : Item :=
  {| wishlistId := wishlistId i;
     title := title i;
     price := price i;
     isReserved := default (isReserved i) (d_isReserved d);
     reservedBy := default (reservedBy i) (d_reservedBy d);
     collectedAmount := (collectedAmount i + default 0 (d_collectedAmount_increment d))%Z;
     hypeCount := (hypeCount i + default 0 (d_hypeCount_increment d))%Z |}.

Definition set_items (st : Store) (m : gmap string Item) : Store :=
  {| items := m; wishlists := wishlists st; contributions := contributions st |}.

(** [item.findUnique({ where: { id } })] *)
Definition findUnique (id : string) (st : Store) : option Item :=
  items st !! id.

(** [item.findUnique({ where: { id }, include: { wishlist: true } })] *)
Definition findUnique_include_wishlist (id : string) (st : Store)
  : option (Item * option Wishlist) :=
  match items st !! id with
  | Some i => Some (i, wishlists st !! wishlistId i)
  | None => None
  end.

(** [item.updateMany({ where, data })]: one conditional UPDATE statement.
    The [where] always pins the primary key, so at most one row is
    affected; the result is the new store and the affected-row count. *)
Definition updateMany (w : ItemWhere) (d : ItemData) (st : Store) : Store * nat :=
  match items st !! w_id w with
  | Some i =>
      if matches w i
      then (set_items st (<[w_id w := apply_data d i]> (items st)), 1)
      else (st, 0)
  | None => (st, 0)
  end.

(** [item.update({ where: { id }, data })]: rejects when the row is absent,
    otherwise returns the updated row. *)
Definition update (id : string) (d : ItemData) (st : Store) : option (Store * Item) :=
  match items st !! id with
  | Some i =>
      let i' := apply_data d i in
      Some (set_items st (<[id := i']> (items st)), i')
  | None => None
  end.

(** [item.create({ data })] with the defaults of the schema; [newId] is the
    primary key the store generates. *)
Definition default_item (wid ttl : string) (p : option Z) : Item :=
  {| wishlistId := wid; title := ttl; price := p;
     isReserved := false; reservedBy := None;
     collectedAmount := 0; hypeCount := 0 |}.

Definition create_item (newId : string) (i : Item) (st : Store) : option Store :=
  match items st !! newId with
  | Some _ => None
  | None => Some (set_items st (<[newId := i]> (items st)))
  end.

(** [item.delete({ where: { id } })]; the foreign key of "Contribution"
    is ON DELETE CASCADE. *)
Definition delete_item (id : string) (st : Store) : Store :=
  {| items := delete id (items st);
     wishlists := wishlists st;
     contributions :=
       List.filter (fun c => negb (String.eqb (c_itemId c) id)) (contributions st) |}.

(** [contribution.create({ data })] *)
Definition create_contribution (c : Contribution) (st : Store) : Store :=
  {| items := items st; wishlists := wishlists st;
     contributions := contributions st ++ [c] |}.

End Prisma.

(** ** socket.io: rooms, and who receives an emitted event *)

Module SocketIO.
Import Prisma.

(** The in-memory adapter: [rooms] maps a room name to its member socket
    ids, [sids] maps a socket id to the rooms it is in. *)
Record Adapter := mkAdapter {
  rooms : gmap string (gset string);
  sids : gmap string (gset string);
}.

Definition empty_adapter : Adapter := {| rooms := ∅; sids := ∅ |}.

(** [socket.rooms] *)
Definition socketRooms (id : string) (a : Adapter) : gset string :=
  default ∅ (sids a !! id).

(** [adapter.addAll(id, {room})], behind [socket.join(room)]. *)
Definition addAll (id room : string) (a : Adapter) : Adapter :=
  {| rooms := <[room := {[id]} ∪ default ∅ (rooms a !! room)]> (rooms a);
     sids := <[id := {[room]} ∪ default ∅ (sids a !! id)]> (sids a) |}.

(** [adapter._del(room, id)]: a room that becomes empty is deleted. *)
Definition _del (room id : string) (rs : gmap string (gset string))
  : gmap string (gset string) :=
  match rs !! room with
  | Some members =>
      let members' := members ∖ {[id]} in
      if decide (size members' = 0%nat) then delete room rs
      else <[room := members']> rs
  | None => rs
  end.

(** [adapter.del(id, room)], behind [socket.leave(room)]. *)
Definition del (id room : string) (a : Adapter) : Adapter :=
  {| rooms := _del room id (rooms a);
     sids := match sids a !! id with
             | Some rs => <[id := rs ∖ {[room]}]> (sids a)
             | None => sids a
             end |}.

(** [adapter.delAll(id)], run when the socket is closed. *)
Definition delAll (id : string) (a : Adapter) : Adapter :=
  match sids a !! id with
  | Some rs =>
      {| rooms := foldr (fun room acc => _del room id acc) (rooms a) (elements rs);
         sids := delete id (sids a) |}
  | None => a
  end.

(** What the handlers send. *)
Inductive Payload :=
| ITEM_ADDED (wishlistId itemId : string) (item : Item)
| ITEM_RESERVED (wishlistId itemId : string) (isReserved : bool) (reservedBy : string)
| ITEM_UNRESERVED (wishlistId itemId : string) (isReserved : bool) (reservedBy : option string)
| ITEM_DELETED (wishlistId itemId : string)
| CONTRIBUTION_ADDED (wishlistId itemId : string) (newCollected : Z) (isFullyFunded : bool)
| Hype (itemId : string) (hypeCount : Z)
| Viewers (count : Z).

(** One emitted event together with the sockets it is sent to. *)
Record Packet := mkPacket {
  p_to : gset string;
  p_event : string;
  p_payload : Payload;
}.

(** [io.emit(event, payload)]: every connected socket. *)
Definition emit (a : Adapter) (event : string) (p : Payload) : Packet :=
  {| p_to := dom (sids a); p_event := event; p_payload := p |}.

(** [io.to(room).emit(event, payload)]: the members of [room]. *)
Definition to_emit (a : Adapter) (room event : string) (p : Payload) : Packet :=
  {| p_to := default ∅ (rooms a !! room); p_event := event; p_payload := p |}.

End SocketIO.

(** ** Handlers as computations over the store and the outgoing events *)

Module Handler.
Import Prisma SocketIO.

Record World := mkWorld {
  db : Store;
  outbox : list Packet;
}.

(** An [async] function body either returns or throws [new Error(msg)]. *)
Inductive Result (A : Type) :=
| Ok (a : A)
| Throw (msg : string).
Arguments Ok {A} a.
Arguments Throw {A} msg.

Definition M (A : Type) : Type := World -> Result A * World.

Definition ret {A} (a : A) : M A := fun w => (Ok a, w).
Definition throw {A} (msg : string) : M A := fun w => (Throw msg, w).
Definition bind {A B} (m : M A) (k : A -> M B) : M B :=
  fun w => match m w with
           | (Ok a, w') => k a w'
           | (Throw msg, w') => (Throw msg, w')
           end.

Definition get_db : M Store := fun w => (Ok (db w), w).
Definition put_db (st : Store) : M unit :=
  fun w => (Ok tt, {| db := st; outbox := outbox w |}).
Definition send (p : Packet) : M unit :=
  fun w => (Ok tt, {| db := db w; outbox := outbox w ++ [p] |}).

(** [prisma.$transaction(async tx => ...)]: when the callback throws, the
    writes it made are rolled back. *)
Definition transaction {A} (m : M A) : M A :=
  fun w => match m w with
           | (Ok a, w') => (Ok a, w')
           | (Throw msg, w') => (Throw msg, {| db := db w; outbox := outbox w' |})
           end.

(** [if (io) { ... }] *)
Definition when_io (io : option Adapter) (f : Adapter -> Packet) : M unit :=
  match io with
  | Some a => send (f a)
  | None => ret tt
  end.

End Handler.

Declare Scope handler_scope.
Delimit Scope handler_scope with handler.
Notation "'do' x <- m ; k" := (Handler.bind m (fun x => k))
  (at level 10, x name, m at level 100, k at level 200) : handler_scope.
Notation "'run' m ; k" := (Handler.bind m (fun _ => k))
  (at level 10, m at level 100, k at level 200) : handler_scope.

(** ** services/ItemService.ts *)

Module ItemService.
Import Prisma SocketIO Handler.
Local Open Scope handler_scope.

(** [`wishlist:${wishlistId}`] names both the room and the event. *)
Definition channel (wishlistId : string) : string := "wishlist:" ++ wishlistId.

(** Store primitives lifted to handlers. *)
Definition item_findUnique (id : string) : M (option Item) :=
  do st <- get_db; ret (findUnique id st).

Definition item_findUnique_include_wishlist (id : string)
  : M (option (Item * option Wishlist)) :=
  do st <- get_db; ret (findUnique_include_wishlist id st).

Definition item_updateMany (w : ItemWhere) (d : ItemData) : M nat :=
  do st <- get_db;
  let '(st', count) := updateMany w d st in
  run put_db st'; ret count.

Definition item_update (id : string) (d : ItemData) : M Item :=
  do st <- get_db;
  match update id d st with
  | Some (st', i) => run put_db st'; ret i
  | None => throw "Record to update not found."
  end.

Definition item_create (newId : string) (i : Item) : M Item :=
  do st <- get_db;
  match create_item newId i st with
  | Some st' => run put_db st'; ret i
  | None => throw "Unique constraint failed on the fields: (`id`)"
  end.

Definition item_delete (id : string) : M unit :=
  do st <- get_db; put_db (delete_item id st).

(** [wishlist.findUnique({ where: { id } })] *)
Definition wishlist_findUnique (id : string) : M (option Wishlist) :=
  do st <- get_db; ret (wishlists st !! id).

(** [item.wishlist.ownerId]; the relation is required by the schema, a
    missing row makes the property access throw. *)
Definition wishlist_ownerId (wl : option Wishlist) : M string :=
  match wl with
  | Some wl => ret (ownerId wl)
  | None => throw "Cannot read properties of null (reading 'ownerId')"
  end.

(** [data.price ? Number(data.price) : undefined] *)
Definition price_of_dto (p : option Z) : option Z :=
  match p with
  | Some v => if (v =? 0)%Z then None else Some v
  | None => None
  end.

Record CreateItemDTO := mkCreateItemDTO {
  dto_wishlistId : string;
  dto_title : string;
  dto_price : option Z;
}.

(** [newId] is the primary key the store generates for the new row. *)
Definition createItem (newId userId : string) (data : CreateItemDTO)
    (io : option Adapter) : M Item :=
  do wishlist <- wishlist_findUnique (dto_wishlistId data);
  match wishlist with
  | None => throw "Not authorized to add to this wishlist"
  | Some wishlist =>
      if negb (String.eqb (ownerId wishlist) userId)
      then throw "Not authorized to add to this wishlist"
      else
        do item <- item_create newId
                     (default_item (dto_wishlistId data) (dto_title data)
                                   (price_of_dto (dto_price data)));
        run when_io io (fun a =>
              emit a (channel (dto_wishlistId data))
                   (ITEM_ADDED (dto_wishlistId data) newId item));
        ret item
  end.

Definition reserve_where (itemId : string) : ItemWhere :=
  {| w_id := itemId; w_isReserved := Some false; w_reservedBy := None |}.

Definition reserve_data (reserverIdentifier : string) : ItemData :=
  {| d_isReserved := Some true; d_reservedBy := Some (Some reserverIdentifier);
     d_collectedAmount_increment := None; d_hypeCount_increment := None |}.

Definition reserveItem (itemId reserverIdentifier : string)
    (reserverId : option string) (io : option Adapter) : M Item :=
  do found <- item_findUnique_include_wishlist itemId;
  match found with
  | None => throw "Item not found"
  | Some (item, wl) =>
      do owner <- wishlist_ownerId wl;
      if Js.strict_eq reserverId owner
      then throw "Cannot reserve your own items"
      else
        do count <- item_updateMany (reserve_where itemId)
                                    (reserve_data reserverIdentifier);
        if (count =? 0)%nat
        then throw "Item is already reserved"
        else
          do updated <- item_findUnique itemId;
          match updated with
          | None => throw "Item not found"
          | Some updated =>
              run when_io io (fun a =>
                    emit a (channel (wishlistId item))
                         (ITEM_RESERVED (wishlistId item) itemId true
                                        reserverIdentifier));
              ret updated
          end
  end.

Definition unreserve_where (itemId requesterIdentifier : string) : ItemWhere :=
  {| w_id := itemId; w_isReserved := Some true;
     w_reservedBy := Some requesterIdentifier |}.

Definition unreserve_data : ItemData :=
  {| d_isReserved := Some false; d_reservedBy := Some None;
     d_collectedAmount_increment := None; d_hypeCount_increment := None |}.

(** The route passes [req.user?.email || nickname], which can be
    [undefined]; hence the option. *)
Definition unreserveItem (itemId : string) (requesterIdentifier : option string)
    (io : option Adapter) : M Item :=
  do found <- item_findUnique_include_wishlist itemId;
  match found with
  | None => throw "Item not found"
  | Some (item, _) =>
      match requesterIdentifier with
      | None => throw "Only the person who reserved can unreserve"
      | Some requester =>
          if negb (Js.truthy requester)
          then throw "Only the person who reserved can unreserve"
          else
            do count <- item_updateMany (unreserve_where itemId requester)
                                        unreserve_data;
            if (count =? 0)%nat
            then throw "Only the person who reserved can unreserve"
            else
              do updated <- item_findUnique itemId;
              match updated with
              | None => throw "Item not found"
              | Some updated =>
                  run when_io io (fun a =>
                        emit a (channel (wishlistId item))
                             (ITEM_UNRESERVED (wishlistId item) itemId false None));
                  ret updated
              end
      end
  end.

Definition deleteItem (itemId userId : string) (io : option Adapter) : M unit :=
  do found <- item_findUnique_include_wishlist itemId;
  match found with
  | None => throw "Not authorized to delete this item"
  | Some (item, wl) =>
      do owner <- wishlist_ownerId wl;
      if negb (String.eqb owner userId)
      then throw "Not authorized to delete this item"
      else
        run item_delete itemId;
        run when_io io (fun a =>
              emit a (channel (wishlistId item))
                   (ITEM_DELETED (wishlistId item) itemId));
        ret tt
  end.

Definition hype_data : ItemData :=
  {| d_isReserved := None; d_reservedBy := None;
     d_collectedAmount_increment := None; d_hypeCount_increment := Some 1%Z |}.

Definition hypeItem (itemId : string) (io : option Adapter) : M Item :=
  do item <- item_update itemId hype_data;
  run when_io io (fun a =>
        to_emit a (channel (wishlistId item)) "hype"
                (Hype itemId (hypeCount item)));
  ret item.

End ItemService.

(** ** HTTP requests and responses *)

Module Http.
Import Prisma.

(** The decoded JWT that [optionalAuth] puts in [req.user]. *)
Record UserPayload := mkUser {
  id : string;
  email : string;
}.

(** What the handlers read from a request: [req.user] and
    [req.body.nickname], a JSON string when it is present. *)
Record Request := mkRequest {
  user : option UserPayload;
  nickname : option string;
}.

(** [req.user?.id] and [req.user?.email] *)
Definition user_id (req : Request) : option string := id <$> user req.
Definition user_email (req : Request) : option string := email <$> user req.

Inductive Body :=
| ErrorJson (error : string)
| MessageJson (message : string)
| ContributionJson (c : Contribution)
| HypeJson (hypeCount : Z).

Record Response := mkResponse {
  status : Z;
  body : Body;
}.

(** [s.includes(sub)] *)
Definition includes (sub s : string) : bool :=
  match String.index 0 sub s with
  | Some _ => true
  | None => false
  end.

End Http.

(** ** routes/items.ts: reserve, unreserve, hype *)

Module ItemRoutes.
Import Prisma SocketIO Handler Http.

(** [POST /:id/reserve] *)
Definition post_reserve (itemId : string) (req : Request) (io : Adapter)
    (w : World) : Response * World :=
  let reservedBy := Js.or_else (user_email req) (nickname req) in
  match reservedBy with
  | None => ({| status := 400; body := ErrorJson "Please provide a nickname" |}, w)
  | Some reservedBy =>
      if negb (Js.truthy reservedBy)
      then ({| status := 400; body := ErrorJson "Please provide a nickname" |}, w)
      else
        match ItemService.reserveItem itemId reservedBy (user_id req) (Some io) w with
        | (Ok _, w') => ({| status := 200; body := MessageJson "Item reserved!" |}, w')
        | (Throw msg, w') =>
            if String.eqb msg "Item not found"
            then ({| status := 404; body := ErrorJson msg |}, w')
            else if String.eqb msg "Cannot reserve your own items"
            then ({| status := 403; body := ErrorJson msg |}, w')
            else ({| status := 400;
                     body := ErrorJson (if Js.truthy msg then msg
                                        else "Failed to reserve item") |}, w')
        end
  end.

(** [POST /:id/unreserve] *)
Definition post_unreserve (itemId : string) (req : Request) (io : Adapter)
    (w : World) : Response * World :=
  let requesterIdentifier := Js.or_else (user_email req) (nickname req) in
  match ItemService.unreserveItem itemId requesterIdentifier (Some io) w with
  | (Ok _, w') => ({| status := 200; body := MessageJson "Item unreserved" |}, w')
  | (Throw msg, w') =>
      if String.eqb msg "Item not found"
      then ({| status := 404; body := ErrorJson msg |}, w')
      else if includes "Only the person" msg
      then ({| status := 403; body := ErrorJson msg |}, w')
      else ({| status := 500; body := ErrorJson "Failed to unreserve item" |}, w')
  end.

(** [POST /:id/hype] *)
Definition post_hype (itemId : string) (io : Adapter)
    (w : World) : Response * World :=
  match ItemService.hypeItem itemId (Some io) w with
  | (Ok item, w') => ({| status := 200; body := HypeJson (hypeCount item) |}, w')
  | (Throw _, w') => ({| status := 500; body := ErrorJson "Failed to hype item" |}, w')
  end.

End ItemRoutes.

(** ** routes/contributions.ts *)

Module ContributionRoutes.
Import Prisma SocketIO Handler Http.
Local Open Scope handler_scope.

(** [req.body] once JSON-decoded. *)
Record ContributionBody := mkContributionBody {
  b_itemId : string;
  b_amount : Z;
  b_message : option string;
  b_nickname : option string;
}.

Record TransactionResult := mkTransactionResult {
  r_contribution : Contribution;
  r_wishlistId : string;
  r_itemId : string;
  r_newCollected : Z;
  r_isFullyFunded : bool;
}.

Definition increment_data (amount : Z) : ItemData :=
  {| d_isReserved := None; d_reservedBy := None;
     d_collectedAmount_increment := Some amount; d_hypeCount_increment := None |}.

Definition funded_data : ItemData :=
  {| d_isReserved := Some true; d_reservedBy := Some (Some "Group contribution");
     d_collectedAmount_increment := None; d_hypeCount_increment := None |}.

Definition contribution_create (c : Contribution) : M Contribution :=
  do st <- get_db; run put_db (create_contribution c st); ret c.

(** [updatedItem.price ? newCollected >= Number(updatedItem.price) : false];
    a stored price is a Decimal object, truthy whatever its value. *)
Definition fully_funded (updatedItem : Item) (newCollected : Z) : bool :=
  match price updatedItem with
  | Some p => (p <=? newCollected)%Z
  | None => false
  end.

(** The callback of [prisma.$transaction]. *)
Definition contribute_body (userId : option string) (contributorName : string)
    (data : ContributionBody) : M TransactionResult :=
  do found <- ItemService.item_findUnique_include_wishlist (b_itemId data);
  match found with
  | None => throw "Item not found"
  | Some (item, wl) =>
      do owner <- ItemService.wishlist_ownerId wl;
      if Js.strict_eq userId owner
      then throw "Cannot contribute to your own items"
      else if isReserved item
      then throw "Item is already reserved/fully funded"
      else
        do contribution <- contribution_create
             {| c_itemId := b_itemId data;
                c_userId := Js.or_else userId None;
                contributorName := contributorName;
                amount := b_amount data;
                message := b_message data |};
        do updatedItem <- ItemService.item_update (b_itemId data)
                            (increment_data (b_amount data));
        let newCollected := collectedAmount updatedItem in
        let isFullyFunded := fully_funded updatedItem newCollected in
        run (if isFullyFunded && negb (isReserved updatedItem)
             then do _ <- ItemService.item_update (b_itemId data) funded_data; ret tt
             else ret tt);
        ret {| r_contribution := contribution;
               r_wishlistId := wishlistId item;
               r_itemId := b_itemId data;
               r_newCollected := newCollected;
               r_isFullyFunded := isFullyFunded |}
  end.

Definition contribute (userId : option string) (contributorName : string)
    (data : ContributionBody) : M TransactionResult :=
  transaction (contribute_body userId contributorName data).

Section Route.

(** zod's [z.string().uuid()] check, a parameter of the route. *)
Variable is_uuid : string -> bool.

(** [contributionSchema.parse(req.body)].  The message of the ZodError it
    throws lists the issues; all that matters below is that it is none of
    the messages the handler's [catch] looks for. *)
Definition schema_parse (data : ContributionBody) : M ContributionBody :=
  if negb (is_uuid (b_itemId data)) then throw "Invalid uuid"
  else if negb (0 <? b_amount data)%Z then throw "Number must be greater than 0"
  else ret data.

(** The [catch] block of the handler. *)
Definition error_response (msg : string) : Response :=
  if String.eqb msg "Item not found"
  then {| status := 404; body := ErrorJson msg |}
  else if String.eqb msg "Cannot contribute to your own items"
  then {| status := 403; body := ErrorJson msg |}
  else if String.eqb msg "Item is already reserved/fully funded"
  then {| status := 400; body := ErrorJson msg |}
  else {| status := 400; body := ErrorJson msg |}.

(** [POST /] *)
Definition post_contribution (u : option UserPayload) (data : ContributionBody)
    (io : Adapter) (w : World) : Response * World :=
  match schema_parse data w with
  | (Throw msg, w') => (error_response msg, w')
  | (Ok data, w') =>
      let contributorName := Js.or_else (email <$> u) (b_nickname data) in
      match contributorName with
      | None => ({| status := 400; body := ErrorJson "Please provide a nickname" |}, w')
      | Some contributorName =>
          if negb (Js.truthy contributorName)
          then ({| status := 400; body := ErrorJson "Please provide a nickname" |}, w')
          else
            match contribute (id <$> u) contributorName data w' with
            | (Throw msg, w'') => (error_response msg, w'')
            | (Ok r, w'') =>
                match send (to_emit io (ItemService.channel (r_wishlistId r))
                                    (ItemService.channel (r_wishlistId r))
                                    (CONTRIBUTION_ADDED (r_wishlistId r) (r_itemId r)
                                       (r_newCollected r) (r_isFullyFunded r))) w'' with
                | (_, w''') =>
                    ({| status := 200; body := ContributionJson (r_contribution r) |}, w''')
                end
            end
      end
  end.

End Route.

End ContributionRoutes.

(** ** routes/wishlists.ts: GET /:id with spoiler protection *)

Module WishlistRoutes.
Import Prisma Handler Http.

(** The selected columns of an included contribution ([userId] is not
    selected). *)
Record ContributionView := mkContributionView {
  v_amount : Z;
  v_contributorName : string;
  v_message : option string;
}.

(** An item of the response: its row and the included contributions. *)
Record ItemView := mkItemView {
  v_id : string;
  v_row : Item;
  v_contributions : list ContributionView;
}.

Record WishlistJson := mkWishlistJson {
  j_wishlist : Wishlist;
  j_items : list ItemView;
  j_isOwner : bool;
}.

(** [new AppError(statusCode, code, message)] *)
Record AppError := mkAppError {
  statusCode : Z;
  code : string;
  err_message : string;
}.

Definition view_of_contribution (c : Contribution) : ContributionView :=
  {| v_amount := amount c; v_contributorName := contributorName c;
     v_message := message c |}.

Definition contributions_of (itemId : string) (st : Store) : list ContributionView :=
  view_of_contribution <$>
    List.filter (fun c => String.eqb (c_itemId c) itemId) (contributions st).

(** [include: { items: { include: { contributions } } }]; the order of the
    rows (by creation time) is not represented. *)
Definition included_items (wid : string) (st : Store) : list ItemView :=
  (fun '(k, i) => {| v_id := k; v_row := i; v_contributions := contributions_of k st |})
    <$> map_to_list (filter (fun '(_, i) => wishlistId i = wid) (items st)).

(** The body of the [forEach] under [if (isOwner)]. *)
Definition hide_spoilers (item : ItemView) : ItemView :=
  {| v_id := v_id item;
     v_row := {| wishlistId := wishlistId (v_row item);
                 title := title (v_row item);
                 price := price (v_row item);
                 isReserved := false;
                 reservedBy := None;
                 collectedAmount := 0;
                 hypeCount := hypeCount (v_row item) |};
     v_contributions := [] |}.

Definition not_found : AppError :=
  {| statusCode := 404; code := "WISHLIST_NOT_FOUND"; err_message := "Wishlist not found" |}.

(** [GET /:id] *)
Definition get_wishlist (wid : string) (req : Request) (st : Store)
  : AppError + WishlistJson :=
  match wishlists st !! wid with
  | None => inl not_found
  | Some wishlist =>
      let isOwner := Js.strict_eq (user_id req) (ownerId wishlist) in
      if negb (isPublic wishlist) && negb isOwner
      then inl not_found
      else
        let items := included_items wid st in
        inr {| j_wishlist := wishlist;
               j_items := if isOwner then hide_spoilers <$> items else items;
               j_isOwner := isOwner |}
  end.

End WishlistRoutes.

(** ** index.ts: presence over socket.io rooms *)

Module Presence.
Import SocketIO.

(** [s.startsWith('wishlist:')] *)
Definition startsWith_wishlist (s : string) : bool := String.prefix "wishlist:" s.

(** [room.replace('wishlist:', '')] for a room name that starts with the
    prefix: the first occurrence is the prefix itself. *)
Definition replace_wishlist (room : string) : string :=
  String.substring 9 (String.length room - 9) room.

(** A client connects: socket.io puts the socket in the room named by its
    own id. *)
Definition connection (sid : string) (a : Adapter) : Adapter := addAll sid sid a.

Definition size_or (d : Z) (room : option (gset string)) : Z :=
  match room with
  | Some r => Z.of_nat (size r)
  | None => d
  end.

(** [socket.on('join_wishlist', ...)] *)
Definition join_wishlist (sid wishlistId : string) (a : Adapter)
  : Adapter * list Packet :=
  let a' := addAll sid ("wishlist:" ++ wishlistId) a in
  let room := rooms a' !! ("wishlist:" ++ wishlistId) in
  let count := size_or 1 room in
  (a', [to_emit a' ("wishlist:" ++ wishlistId) ("viewers:" ++ wishlistId) (Viewers count)]).

(** [socket.on('leave_wishlist', ...)] *)
Definition leave_wishlist (sid wishlistId : string) (a : Adapter)
  : Adapter * list Packet :=
  let a' := del sid ("wishlist:" ++ wishlistId) a in
  let room := rooms a' !! ("wishlist:" ++ wishlistId) in
  let count := size_or 0 room in
  (a', [to_emit a' ("wishlist:" ++ wishlistId) ("viewers:" ++ wishlistId) (Viewers count)]).

(** The body of the [forEach] in [socket.on('disconnecting', ...)]. *)
Definition disconnecting_room (a : Adapter) (room : string) : list Packet :=
  if startsWith_wishlist room
  then
    let wishlistId := replace_wishlist room in
    let roomSet := rooms a !! room in
    let count := match roomSet with
                 | Some r => (Z.of_nat (size r) - 1)%Z
                 | None => 0%Z
                 end in
    [to_emit a room ("viewers:" ++ wishlistId) (Viewers count)]
  else [].

(** [socket.on('disconnecting', ...)]: runs while the socket is still in
    its rooms. *)
Definition disconnecting (sid : string) (a : Adapter) : list Packet :=
  elements (socketRooms sid a) ≫= disconnecting_room a.

(** A client goes away: the handler above, then socket.io removes the
    socket from every room. *)
Definition disconnect (sid : string) (a : Adapter) : Adapter * list Packet :=
  (delAll sid a, disconnecting sid a).

End Presence.

(** ** Failure kinds *)

Module Errors.
Import Http.

(** The handlers throw plain [Error]s; what tells them apart is the message,
    which the route handlers map to a status. *)
Inductive Kind := NotFound | Forbidden | Conflict | ValidationError.

(** - "Item not found" is answered 404 by every route;
    - the two "your own items" messages are answered 403;
    - a message that includes "Only the person" is answered 403 by the
      unreserve route;
    - the two "already reserved" messages fall through to the routes'
      generic 400 with the message kept;
    - anything else is a request the handler could not accept. *)
Definition kind_of_message (msg : string) : Kind :=
  if String.eqb msg "Item not found" then NotFound
  else if String.eqb msg "Cannot reserve your own items" then Forbidden
  else if String.eqb msg "Cannot contribute to your own items" then Forbidden
  else if includes "Only the person" msg then Forbidden
  else if String.eqb msg "Item is already reserved" then Conflict
  else if String.eqb msg "Item is already reserved/fully funded" then Conflict
  else ValidationError.

End Errors.

(** ** Vocabulary of the properties *)

Module Spec.
Import Prisma SocketIO Handler Http Errors.

(** What a successful reserve writes into the row. *)
Definition reserved_row (i : Item) (holderLabel : string) : Item :=
  {| wishlistId := wishlistId i; title := title i; price := price i;
     isReserved := true; reservedBy := Some holderLabel;
     collectedAmount := collectedAmount i; hypeCount := hypeCount i |}.

(** What a successful unreserve writes into the row. *)
Definition unreserved_row (i : Item) : Item :=
  {| wishlistId := wishlistId i; title := title i; price := price i;
     isReserved := false; reservedBy := None;
     collectedAmount := collectedAmount i; hypeCount := hypeCount i |}.

(** The Contribution row that a contribute call appends. *)
Definition contribution_record (userId : option string) (name : string)
    (data : ContributionRoutes.ContributionBody) : Contribution :=
  {| c_itemId := ContributionRoutes.b_itemId data;
     c_userId := Js.or_else userId None;
     contributorName := name;
     amount := ContributionRoutes.b_amount data;
     message := ContributionRoutes.b_message data |}.


(** The row of an unreserved item after a contribution of [a]. *)
Definition contributed_row (i : Item) (a : Z) : Item :=
  {| wishlistId := wishlistId i; title := title i; price := price i;
     isReserved :=
       match price i with
       | Some p => (p <=? collectedAmount i + a)%Z
       | None => false
       end;
     reservedBy :=
       if match price i with
          | Some p => (p <=? collectedAmount i + a)%Z
          | None => false
          end
       then Some "Group contribution" else reservedBy i;
     collectedAmount := collectedAmount i + a;
     hypeCount := hypeCount i |}.

(** What the transaction returns for it. *)
Definition contribution_result (userId : option string) (name : string)
    (data : ContributionRoutes.ContributionBody) (i : Item)
  : ContributionRoutes.TransactionResult :=
  {| ContributionRoutes.r_contribution := contribution_record userId name data;
     ContributionRoutes.r_wishlistId := wishlistId i;
     ContributionRoutes.r_itemId := ContributionRoutes.b_itemId data;
     ContributionRoutes.r_newCollected := collectedAmount i + ContributionRoutes.b_amount data;
     ContributionRoutes.r_isFullyFunded :=
       match price i with
       | Some p => (p <=? collectedAmount i + ContributionRoutes.b_amount data)%Z
       | None => false
       end |}.



(** The item exists and is not reserved. *)
Definition open_in (st : Store) (itemId : string) : bool :=
  match items st !! itemId with
  | Some i => negb (isReserved i)
  | None => false
  end.






(** The operations that touch items, as the server receives them. *)
Inductive Op :=
| CreateItem (newId userId : string) (data : ItemService.CreateItemDTO)
| Reserve (itemId : string) (req : Request)
| Unreserve (itemId : string) (req : Request)
| Contribute (u : option UserPayload) (data : ContributionRoutes.ContributionBody)
| HypeItem (itemId : string)
| DeleteItem (itemId userId : string).

Section Steps.

Variable is_uuid : string -> bool.

Definition step (io : Adapter) (op : Op) (w : World) : World :=
  match op with
  | CreateItem newId userId data =>
      snd (ItemService.createItem newId userId data (Some io) w)
  | Reserve itemId req => snd (ItemRoutes.post_reserve itemId req io w)
  | Unreserve itemId req => snd (ItemRoutes.post_unreserve itemId req io w)
  | Contribute u data => snd (ContributionRoutes.post_contribution is_uuid u data io w)
  | HypeItem itemId => snd (ItemRoutes.post_hype itemId io w)
  | DeleteItem itemId userId => snd (ItemService.deleteItem itemId userId (Some io) w)
  end.

(** Operations arrive one after the other, each with the rooms as they are
    at that moment. *)
Fixpoint steps (ops : list (Adapter * Op)) (w : World) : World :=
  match ops with
  | [] => w
  | (io, op) :: rest => steps rest (step io op w)
  end.

End Steps.


(** The sockets in a room; a room that is not in the map has none. *)
Definition members (a : Adapter) (room : string) : gset string :=
  default ∅ (rooms a !! room).

(** What a client can make the presence handlers see. *)
Inductive Signal :=
| Connect (sid : string)
| JoinWishlist (sid wishlistId : string)
| LeaveWishlist (sid wishlistId : string)
| Disconnect (sid : string).

Definition presence_step (s : Signal) (a : Adapter) : Adapter * list Packet :=
  match s with
  | Connect sid => (Presence.connection sid a, [])
  | JoinWishlist sid wishlistId => Presence.join_wishlist sid wishlistId a
  | LeaveWishlist sid wishlistId => Presence.leave_wishlist sid wishlistId a
  | Disconnect sid => Presence.disconnect sid a
  end.

(** The signals handled in order, with everything emitted on the way. *)
Fixpoint presence_run (l : list Signal) (a : Adapter) : Adapter * list Packet :=
  match l with
  | [] => (a, [])
  | s :: rest =>
      let '(a', out) := presence_step s a in
      let '(a'', out') := presence_run rest a' in
      (a'', (out ++ out')%list)
  end.

(** The adapters the server can be in. *)
Inductive reachable : Adapter -> Prop :=
| reachable_start : reachable empty_adapter
| reachable_step (s : Signal) (a : Adapter) :
    reachable a -> reachable (fst (presence_step s a)).

(** Every room a socket lists has the socket as a member. *)
Definition sound (a : Adapter) : Prop :=
  forall sid room, room ∈ socketRooms sid a -> sid ∈ members a room.

End Spec.

(** ** A small wishlist used in the examples *)

Module Scenario.
Import Prisma SocketIO Handler Http.

(** Alice owns the public wishlist "w1" with one item priced 50. *)
Definition bike : Item := default_item "w1" "Bike" (Some 50%Z).

Definition alices_list : Wishlist := {| ownerId := "alice"; isPublic := true |}.

Definition store0 : Store :=
  {| items := {[ "i1" := bike ]};
     wishlists := {[ "w1" := alices_list ]};
     contributions := [] |}.

Definition world0 : World := {| db := store0; outbox := [] |}.

(** The same, with the item reserved by the guest Sam. *)
Definition bike_sam : Item := Spec.reserved_row bike "Sam".

Definition store_sam : Store :=
  {| items := {[ "i1" := bike_sam ]};
     wishlists := {[ "w1" := alices_list ]};
     contributions := [] |}.

Definition world_sam : World := {| db := store_sam; outbox := [] |}.

Definition alice : UserPayload := {| id := "alice"; email := "alice@example.org" |}.

Definition guest (name : string) : Request := {| user := None; nickname := Some name |}.

(** Socket "A" views wishlist "w1", socket "B" views wishlist "w2". *)
Definition two_viewers : Adapter :=
  fst (Presence.join_wishlist "B" "w2"
        (Presence.connection "B"
          (fst (Presence.join_wishlist "A" "w1"
                 (Presence.connection "A" empty_adapter))))).

End Scenario.

(** ** Sequences of requests *)

Module Runs.
Import Prisma SocketIO Handler Http Spec.

(** The same route hit by one request after the other. *)
Fixpoint reserve_all (itemId : string) (io : Adapter) (reqs : list Request) (w : World)
  : list Response * World :=
  match reqs with
  | [] => ([], w)
  | req :: rest =>
      let '(resp, w') := ItemRoutes.post_reserve itemId req io w in
      let '(resps, w'') := reserve_all itemId io rest w' in
      (resp :: resps, w'')
  end.


Definition succeeded (resp : Response) : bool := (status resp =? 200)%Z.

(** The label a request reserves under: [req.user?.email || nickname]. *)
Definition label_of (req : Request) : option string :=
  Js.or_else (user_email req) (nickname req).

(** The sum of the ledger entries of one item. *)
Definition contributed (itemId : string) (cs : list Contribution) : Z :=
  foldr (fun c acc => (if String.eqb (c_itemId c) itemId then amount c else 0) + acc)%Z
        0%Z cs.

(** For every id, the ledger entries under it add up to the
    [collectedAmount] of the item with that id, and to nothing when there
    is no such item. *)
Definition balanced (st : Store) : Prop :=
  forall itemId,
    contributed itemId (contributions st)
    = match items st !! itemId with
      | Some i => collectedAmount i
      | None => 0%Z
      end.

(** The row of an item after [n] hypes. *)
Definition hyped_row (i : Item) (n : Z) : Item :=
  {| wishlistId := wishlistId i; title := title i; price := price i;
     isReserved := isReserved i; reservedBy := reservedBy i;
     collectedAmount := collectedAmount i; hypeCount := hypeCount i + n |}.

(** The row [createItem] stores for a request body. *)
Definition created_row (data : ItemService.CreateItemDTO) : Item :=
  default_item (ItemService.dto_wishlistId data) (ItemService.dto_title data)
               (ItemService.price_of_dto (ItemService.dto_price data)).

(** What one operation can do to the store: nothing; rewrite one row
    without touching its collected amount; add a row with nothing collected
    under an unused id; add a positive ledger entry together with the same
    amount on the row it names; delete the row [target] with its ledger
    entries. *)
Inductive effect (target : option string) (st st' : Store) : Prop :=
| effect_none : st' = st -> effect target st st'
| effect_row (k : string) (i i' : Item) :
    items st !! k = Some i ->
    collectedAmount i' = collectedAmount i ->
    st' = set_items st (<[k := i']> (items st)) ->
    effect target st st'
| effect_create (k : string) (i' : Item) :
    items st !! k = None ->
    collectedAmount i' = 0%Z ->
    st' = set_items st (<[k := i']> (items st)) ->
    effect target st st'
| effect_contribute (k : string) (i i' : Item) (c : Contribution) :
    items st !! k = Some i ->
    c_itemId c = k ->
    (0 < amount c)%Z ->
    collectedAmount i' = (collectedAmount i + amount c)%Z ->
    st' = {| items := <[k := i']> (items st);
             wishlists := wishlists st;
             contributions := contributions st ++ [c] |} ->
    effect target st st'
| effect_delete (k : string) :
    target = Some k ->
    st' = delete_item k st ->
    effect target st st'.

(** The item an operation asks to delete, if any. *)
Definition delete_target (op : Op) : option string :=
  match op with
  | DeleteItem k _ => Some k
  | _ => None
  end.




(** The two maps of the adapter say the same thing, and no room is kept
    empty. *)
Definition coherent (a : Adapter) : Prop :=
  (forall sid room, sid ∈ members a room <-> room ∈ socketRooms sid a) /\
  (forall room m, rooms a !! room = Some m -> m <> ∅).

End Runs.

(** ** middleware/rateLimit.ts *)

Module RateLimit.

Record RateLimitOptions := mkOptions {
  windowMs : Z;
  max : Z;
  keyPrefix : string;
  message : string;
}.

Record Bucket := mkBucket {
  count : Z;
  resetAt : Z;
}.

(** [cleanupExpiredBuckets()], with [now] the value of [Date.now()]. *)
Definition cleanupExpiredBuckets (now : Z) (buckets : gmap string Bucket)
  : gmap string Bucket :=
  filter (fun '(_, bucket) => ~ (resetAt bucket <= now)%Z) buckets.

(** What the middleware does with the request: [next()], or the 429
    response with its [Retry-After] header and error message. *)
Inductive Outcome :=
| Next
| TooMany (retryAfter : Z) (error : string).

(** [Math.ceil(ms / 1000)] for an integer number of milliseconds. *)
Definition ceil_seconds (ms : Z) : Z := (- ((- ms) / 1000))%Z.

(** The middleware returned by [createRateLimiter(options)]; [ip] is the
    value of [getClientIp(req)] and [now] the value of [Date.now()]. *)
Definition createRateLimiter (options : RateLimitOptions) (now : Z) (ip : string)
    (buckets : gmap string Bucket) : Outcome * gmap string Bucket :=
  let buckets := cleanupExpiredBuckets now buckets in
  let key := keyPrefix options ++ ":" ++ ip in
  match buckets !! key with
  | None =>
      (Next, <[key := {| count := 1; resetAt := now + windowMs options |}]> buckets)
  | Some existing =>
      if (resetAt existing <=? now)%Z
      then (Next, <[key := {| count := 1; resetAt := now + windowMs options |}]> buckets)
      else if (max options <=? count existing)%Z
      then (TooMany (Z.max (ceil_seconds (resetAt existing - now)) 1) (message options),
            buckets)
      else (Next, <[key := {| count := count existing + 1;
                              resetAt := resetAt existing |}]> buckets)
  end.

Definition mutationLimiter : RateLimitOptions :=
  {| windowMs := 60000; max := 80; keyPrefix := "mutation";
     message := "Too many mutation requests, please slow down" |}.

Definition authLimiter : RateLimitOptions :=
  {| windowMs := 60000; max := 25; keyPrefix := "auth";
     message := "Too many auth attempts, please try again shortly" |}.

Definition defaultApiLimiter : RateLimitOptions :=
  {| windowMs := 60000; max := 300; keyPrefix := "api";
     message := "Too many requests, please try again in a minute" |}.

(** Requests hitting one limiter, each with its time and client address;
    the result is how many requests of [ip] were let through, and the
    buckets at the end. *)
Fixpoint admitted (options : RateLimitOptions) (ip : string)
    (reqs : list (Z * string)) (buckets : gmap string Bucket) : nat :=
  match reqs with
  | [] => 0
  | (now, from) :: rest =>
      let '(out, buckets') := createRateLimiter options now from buckets in
      (if String.eqb from ip
       then match out with Next => 1 | TooMany _ _ => 0 end
       else 0)
      + admitted options ip rest buckets'
  end.

End RateLimit.

(** ** utils/errors.ts *)

Module AppErrors.
Import WishlistRoutes.

(** What a handler can throw: an [AppError] (its [details] are never set by
    the code), a [ZodError] with its issues, any other [Error], or a value
    that is not an [Error]. *)
Inductive Thrown :=
| ThrownAppError (e : AppError)
| ThrownZodError (issues : list string)
| ThrownError (message : string)
| ThrownOther.

Record ApiErrorBody := mkApiErrorBody {
  e_code : string;
  e_message : string;
  e_details : option (list string);
  e_requestId : option string;
}.

Record Fallback := mkFallback {
  f_statusCode : Z;
  f_code : string;
  f_message : string;
}.

(** [errorHandler(error, req, res, next)]: the status and the body sent. *)
Definition errorHandler (error : Thrown) (requestId : option string) : Z * ApiErrorBody :=
  match error with
  | ThrownAppError e =>
      (statusCode e,
       {| e_code := code e; e_message := err_message e; e_details := None;
          e_requestId := requestId |})
  | ThrownZodError issues =>
      (400%Z,
       {| e_code := "VALIDATION_ERROR"; e_message := "Invalid request payload";
          e_details := Some issues; e_requestId := requestId |})
  | _ =>
      (500%Z,
       {| e_code := "INTERNAL_SERVER_ERROR";
          e_message := "An unexpected server error occurred";
          e_details := None; e_requestId := requestId |})
  end.

(** [toAppError(error, fallback)] *)
Definition toAppError (error : Thrown) (fallback : Fallback) : Thrown :=
  match error with
  | ThrownAppError _ | ThrownZodError _ => error
  | ThrownError message =>
      ThrownAppError {| statusCode := f_statusCode fallback; code := f_code fallback;
                        err_message := message |}
  | ThrownOther =>
      ThrownAppError {| statusCode := f_statusCode fallback; code := f_code fallback;
                        err_message := f_message fallback |}
  end.

(** The fallback of [GET /wishlists/:id]. *)
Definition wishlist_fetch_failed : Fallback :=
  {| f_statusCode := 500; f_code := "WISHLIST_FETCH_FAILED";
     f_message := "Failed to fetch wishlist" |}.

End AppErrors.

(** ** middleware/optionalAuth.ts *)

From Stdlib Require Import Ascii.

Module OptionalAuth.
Import Http.

(** [s.split(sep)] for a one-character separator. *)
Fixpoint split (sep : Ascii.ascii) (s : string) : list string :=
  match s with
  | EmptyString => [EmptyString]
  | String c s' =>
      if Ascii.eqb c sep then EmptyString :: split sep s'
      else match split sep s' with
           | w :: ws => String c w :: ws
           | [] => [String c EmptyString]
           end
  end.

Section WithVerify.

(** [jwt.verify(token, secret)]: the decoded payload, or [None] when it
    throws. *)
Variable verify : string -> option UserPayload.

(** [authHeader && authHeader.split(' ')[1]] *)
Definition token_of (authHeader : option string) : option string :=
  match authHeader with
  | None => None
  | Some h => if Js.truthy h then split " "%char h !! 1%nat else Some h
  end.

(** The middleware: the value of [req.user] when [next()] is called, given
    its value before. *)
Definition optionalAuth (authHeader : option string) (user : option UserPayload)
  : option UserPayload :=
  match token_of authHeader with
  | Some token => if Js.truthy token then verify token else user
  | None => user
  end.

End WithVerify.

(** The character does not occur in the string. *)
Fixpoint free_of (sep : Ascii.ascii) (s : string) : bool :=
  match s with
  | EmptyString => true
  | String c s' => negb (Ascii.eqb c sep) && free_of sep s'
  end.

End OptionalAuth.
(** * Properties *)

Import Prisma SocketIO Handler Http Errors Spec.

#[local] Set Warnings "-clear-no-such-hyp".

(** ** Store primitives *)

Lemma matches_reserve_where (itemId : string) (i : Item) :
  matches (ItemService.reserve_where itemId) i = negb (isReserved i).
Proof. unfold matches; simpl. by destruct (isReserved i). Qed.

Lemma matches_unreserve_where (itemId who : string) (i : Item) :
  matches (ItemService.unreserve_where itemId who) i
  = isReserved i && bool_decide (reservedBy i = Some who).
Proof. unfold matches; simpl. by destruct (isReserved i). Qed.

Lemma updateMany_count (w : ItemWhere) (d : ItemData) (st : Store) :
  snd (updateMany w d st) = 0%nat \/ snd (updateMany w d st) = 1%nat.
Proof.
  unfold updateMany. destruct (items st !! w_id w) as [i|]; [|by left].
  destruct (matches w i); [by right|by left].
Qed.

Lemma updateMany_zero_unchanged (w : ItemWhere) (d : ItemData) (st : Store) :
  snd (updateMany w d st) = 0%nat -> fst (updateMany w d st) = st.
Proof.
  unfold updateMany. destruct (items st !! w_id w) as [i|]; [|done].
  destruct (matches w i); [discriminate|done].
Qed.

(** ** Reservation *)

Ltac unfold_handlers :=
  unfold ItemService.item_findUnique_include_wishlist, ItemService.item_updateMany,
    ItemService.item_findUnique, ItemService.item_update, ItemService.wishlist_ownerId,
    when_io, bind, get_db, ret, throw, put_db, send in *.

Lemma world_eta (w : World) : {| db := db w; outbox := outbox w |} = w.
Proof. by destruct w. Qed.

Lemma apply_reserve_data (i : Item) (holderLabel : string) :
  apply_data (ItemService.reserve_data holderLabel) i = reserved_row i holderLabel.
Proof.
  unfold apply_data, reserved_row; simpl. f_equal; lia.
Qed.

(** The conditional update of reserve, on a row that exists. *)
Lemma updateMany_reserve (itemId holderLabel : string) (st : Store) (item : Item) :
  items st !! itemId = Some item ->
  updateMany (ItemService.reserve_where itemId) (ItemService.reserve_data holderLabel) st
  = if isReserved item then (st, 0%nat)
    else (set_items st (<[itemId := reserved_row item holderLabel]> (items st)), 1%nat).
Proof.
  intros Hitem. unfold updateMany; simpl.
  rewrite Hitem, matches_reserve_where, apply_reserve_data.
  by destruct (isReserved item).
Qed.

Lemma reserveItem_item_missing (itemId holderLabel : string) (requester : option string)
    (io : option Adapter) (w : World) :
  items (db w) !! itemId = None ->
  ItemService.reserveItem itemId holderLabel requester io w = (Throw "Item not found", w).
Proof.
  intros Hitem. unfold ItemService.reserveItem. unfold_handlers.
  unfold findUnique_include_wishlist. by rewrite Hitem.
Qed.

Lemma reserveItem_wishlist_missing (itemId holderLabel : string)
    (requester : option string) (io : option Adapter) (w : World) (item : Item) :
  items (db w) !! itemId = Some item ->
  wishlists (db w) !! wishlistId item = None ->
  ItemService.reserveItem itemId holderLabel requester io w
  = (Throw "Cannot read properties of null (reading 'ownerId')", w).
Proof.
  intros Hitem Hwl. unfold ItemService.reserveItem. unfold_handlers.
  unfold findUnique_include_wishlist. by rewrite Hitem, Hwl.
Qed.

Lemma reserveItem_owner (itemId holderLabel : string)
    (io : option Adapter) (w : World) (item : Item) (wl : Wishlist) :
  items (db w) !! itemId = Some item ->
  wishlists (db w) !! wishlistId item = Some wl ->
  ItemService.reserveItem itemId holderLabel (Some (ownerId wl)) io w
  = (Throw "Cannot reserve your own items", w).
Proof.
  intros Hitem Hwl. unfold ItemService.reserveItem. unfold_handlers.
  unfold findUnique_include_wishlist. rewrite Hitem, Hwl; simpl.
  unfold Js.strict_eq. by rewrite bool_decide_eq_true_2.
Qed.

Lemma reserveItem_already_reserved (itemId holderLabel : string)
    (requester : option string) (io : option Adapter) (w : World)
    (item : Item) (wl : Wishlist) :
  items (db w) !! itemId = Some item ->
  wishlists (db w) !! wishlistId item = Some wl ->
  requester <> Some (ownerId wl) ->
  isReserved item = true ->
  ItemService.reserveItem itemId holderLabel requester io w
  = (Throw "Item is already reserved", w).
Proof.
  intros Hitem Hwl Hreq Hres. unfold ItemService.reserveItem. unfold_handlers.
  unfold findUnique_include_wishlist. rewrite Hitem, Hwl; simpl.
  unfold Js.strict_eq. rewrite bool_decide_eq_false_2 by done.
  rewrite (updateMany_reserve _ _ _ item), Hres by done. simpl.
  by rewrite world_eta.
Qed.

Lemma reserveItem_accepted (itemId holderLabel : string)
    (requester : option string) (io : option Adapter) (w : World)
    (item : Item) (wl : Wishlist) :
  items (db w) !! itemId = Some item ->
  wishlists (db w) !! wishlistId item = Some wl ->
  requester <> Some (ownerId wl) ->
  isReserved item = false ->
  ItemService.reserveItem itemId holderLabel requester io w
  = (Ok (reserved_row item holderLabel),
     {| db := set_items (db w)
                (<[itemId := reserved_row item holderLabel]> (items (db w)));
        outbox :=
          match io with
          | Some a =>
              (outbox w
               ++ [emit a (ItemService.channel (wishlistId item))
                        (ITEM_RESERVED (wishlistId item) itemId true holderLabel)])%list
          | None => outbox w
          end |}).
Proof.
  intros Hitem Hwl Hreq Hres. unfold ItemService.reserveItem. unfold_handlers.
  unfold findUnique_include_wishlist. rewrite Hitem, Hwl; simpl.
  unfold Js.strict_eq. rewrite bool_decide_eq_false_2 by done.
  rewrite (updateMany_reserve _ _ _ item), Hres by done. simpl.
  unfold findUnique; simpl. rewrite lookup_insert_eq.
  by destruct io.
Qed.

(** C1. A reserve call on an existing item by somebody who is not the
    authenticated owner of the wishlist does exactly one conditional update,
    [updateMany] guarded by [isReserved = false]: the update affects zero
    rows exactly when the item is already reserved; the call throws "Item is
    already reserved" (a Conflict) and leaves store and outbox as they were
    exactly in that case; otherwise the store after the call is the store
    after the update, where the row has [isReserved = true] and
    [reservedBy = holderLabel]. *)
Theorem C1_reserve_conditional_transition
    (itemId holderLabel : string) (requester : option string)
    (io : option Adapter) (w : World) (item : Item) (wl : Wishlist) :
  items (db w) !! itemId = Some item ->
  wishlists (db w) !! wishlistId item = Some wl ->
  requester <> Some (ownerId wl) ->
  let upd := updateMany (ItemService.reserve_where itemId)
                        (ItemService.reserve_data holderLabel) (db w) in
  (snd upd = 0%nat <-> isReserved item = true) /\
  match ItemService.reserveItem itemId holderLabel requester io w with
  | (Throw msg, w') =>
      snd upd = 0%nat /\ msg = "Item is already reserved" /\
      kind_of_message msg = Conflict /\ w' = w
  | (Ok updated, w') =>
      snd upd = 1%nat /\ db w' = fst upd /\
      items (db w') = <[itemId := reserved_row item holderLabel]> (items (db w)) /\
      updated = reserved_row item holderLabel
  end.
Proof.
  intros Hitem Hwl Hreq upd. unfold upd.
  rewrite (updateMany_reserve _ _ _ item) by done.
  destruct (isReserved item) eqn:Hres.
  - rewrite (reserveItem_already_reserved _ _ _ _ _ item wl) by done.
    simpl. repeat split; done.
  - rewrite (reserveItem_accepted _ _ _ _ _ item wl) by done.
    simpl. repeat split; done.
Qed.

Lemma C1_reserve_conditional_transition_witness :
  items (db Scenario.world0) !! "i1" = Some Scenario.bike /\
  wishlists (db Scenario.world0) !! wishlistId Scenario.bike = Some Scenario.alices_list /\
  (None : option string) <> Some (ownerId Scenario.alices_list) /\
  let upd := updateMany (ItemService.reserve_where "i1")
                        (ItemService.reserve_data "Sam") (db Scenario.world0) in
  (snd upd = 0%nat <-> isReserved Scenario.bike = true) /\
  match ItemService.reserveItem "i1" "Sam" None None Scenario.world0 with
  | (Throw msg, w') =>
      snd upd = 0%nat /\ msg = "Item is already reserved" /\
      kind_of_message msg = Conflict /\ w' = Scenario.world0
  | (Ok updated, w') =>
      snd upd = 1%nat /\ db w' = fst upd /\
      items (db w') = <[ "i1" := reserved_row Scenario.bike "Sam"]> (items (db Scenario.world0)) /\
      updated = reserved_row Scenario.bike "Sam"
  end.
Proof.
  split; [reflexivity|]. split; [reflexivity|]. split; [discriminate|].
  apply (C1_reserve_conditional_transition "i1" "Sam" None None Scenario.world0
           Scenario.bike Scenario.alices_list);
    [reflexivity | reflexivity | discriminate].
Defined.

(** ** Unreserve *)

Lemma apply_unreserve_data (i : Item) :
  apply_data ItemService.unreserve_data i = unreserved_row i.
Proof. unfold apply_data, unreserved_row; simpl. f_equal; lia. Qed.

(** The conditional update of unreserve, on a row that exists. *)
Lemma updateMany_unreserve (itemId who : string) (st : Store) (item : Item) :
  items st !! itemId = Some item ->
  updateMany (ItemService.unreserve_where itemId who) ItemService.unreserve_data st
  = if isReserved item && bool_decide (reservedBy item = Some who)
    then (set_items st (<[itemId := unreserved_row item]> (items st)), 1%nat)
    else (st, 0%nat).
Proof.
  intros Hitem. unfold updateMany; simpl.
  by rewrite Hitem, matches_unreserve_where, apply_unreserve_data.
Qed.

Lemma holds_reservation (item : Item) (who : string) :
  isReserved item && bool_decide (reservedBy item = Some who) = true <->
  isReserved item = true /\ reservedBy item = Some who.
Proof. rewrite andb_true_iff, bool_decide_eq_true. done. Qed.

Lemma unreserveItem_item_missing (itemId : string) (requester : option string)
    (io : option Adapter) (w : World) :
  items (db w) !! itemId = None ->
  ItemService.unreserveItem itemId requester io w = (Throw "Item not found", w).
Proof.
  intros Hitem. unfold ItemService.unreserveItem. unfold_handlers.
  unfold findUnique_include_wishlist. by rewrite Hitem.
Qed.

Lemma unreserveItem_no_identity (itemId : string) (requester : option string)
    (io : option Adapter) (w : World) (item : Item) :
  items (db w) !! itemId = Some item ->
  Js.falsy requester = true ->
  ItemService.unreserveItem itemId requester io w
  = (Throw "Only the person who reserved can unreserve", w).
Proof.
  intros Hitem Hfalsy. unfold ItemService.unreserveItem. unfold_handlers.
  unfold findUnique_include_wishlist. rewrite Hitem.
  destruct requester as [who|]; [|done].
  simpl in Hfalsy. by rewrite Hfalsy.
Qed.

Lemma unreserveItem_not_holder (itemId who : string)
    (io : option Adapter) (w : World) (item : Item) :
  items (db w) !! itemId = Some item ->
  Js.truthy who = true ->
  isReserved item && bool_decide (reservedBy item = Some who) = false ->
  ItemService.unreserveItem itemId (Some who) io w
  = (Throw "Only the person who reserved can unreserve", w).
Proof.
  intros Hitem Htruthy Hnot. unfold ItemService.unreserveItem. unfold_handlers.
  unfold findUnique_include_wishlist. rewrite Hitem, Htruthy; simpl.
  rewrite (updateMany_unreserve _ _ _ item), Hnot by done. simpl.
  by rewrite world_eta.
Qed.

Lemma unreserveItem_accepted (itemId who : string)
    (io : option Adapter) (w : World) (item : Item) :
  items (db w) !! itemId = Some item ->
  Js.truthy who = true ->
  isReserved item && bool_decide (reservedBy item = Some who) = true ->
  ItemService.unreserveItem itemId (Some who) io w
  = (Ok (unreserved_row item),
     {| db := set_items (db w) (<[itemId := unreserved_row item]> (items (db w)));
        outbox :=
          match io with
          | Some a =>
              (outbox w
               ++ [emit a (ItemService.channel (wishlistId item))
                        (ITEM_UNRESERVED (wishlistId item) itemId false None)])%list
          | None => outbox w
          end |}).
Proof.
  intros Hitem Htruthy Hholds. unfold ItemService.unreserveItem. unfold_handlers.
  unfold findUnique_include_wishlist. rewrite Hitem, Htruthy; simpl.
  rewrite (updateMany_unreserve _ _ _ item), Hholds by done. simpl.
  unfold findUnique; simpl. rewrite lookup_insert_eq.
  by destruct io.
Qed.

(** C4 (as the code has it). On an existing item, unreserve throws "Only the
    person who reserved can unreserve", which the route answers 403
    (Forbidden), both when the requester identity is empty or unset and when
    the conditional update (clear [isReserved] and [reservedBy] only if the
    item is reserved and [reservedBy] is the requester) affected zero rows;
    in both cases nothing is written.  Otherwise the row gets
    [isReserved = false] and [reservedBy = null]. *)
Theorem C4_unreserve_outcomes
    (itemId : string) (requester : option string)
    (io : option Adapter) (w : World) (item : Item) :
  items (db w) !! itemId = Some item ->
  (Js.falsy requester = true ->
     ItemService.unreserveItem itemId requester io w
     = (Throw "Only the person who reserved can unreserve", w) /\
     kind_of_message "Only the person who reserved can unreserve" = Forbidden) /\
  (forall who, requester = Some who -> Js.truthy who = true ->
     let upd := updateMany (ItemService.unreserve_where itemId who)
                           ItemService.unreserve_data (db w) in
     (snd upd = 0%nat <->
        ~ (isReserved item = true /\ reservedBy item = Some who)) /\
     match ItemService.unreserveItem itemId requester io w with
     | (Throw msg, w') =>
         snd upd = 0%nat /\ msg = "Only the person who reserved can unreserve" /\
         kind_of_message msg = Forbidden /\ w' = w
     | (Ok updated, w') =>
         snd upd = 1%nat /\ db w' = fst upd /\
         items (db w') = <[itemId := unreserved_row item]> (items (db w)) /\
         updated = unreserved_row item /\
         isReserved updated = false /\ reservedBy updated = None
     end).
Proof.
  intros Hitem. split.
  { intros Hfalsy. split; [by apply unreserveItem_no_identity with item|done]. }
  intros who -> Htruthy upd. unfold upd.
  rewrite (updateMany_unreserve _ _ _ item) by done.
  destruct (isReserved item && bool_decide (reservedBy item = Some who)) eqn:Hholds.
  - rewrite (unreserveItem_accepted _ _ _ _ item) by done.
    simpl. split; [|by repeat split].
    split; [discriminate|]. intros Hnot. exfalso. apply Hnot.
    by apply holds_reservation.
  - rewrite (unreserveItem_not_holder _ _ _ _ item) by done.
    simpl. split; [|by repeat split].
    split; [|done]. intros _ Hh. apply holds_reservation in Hh. congruence.
Qed.

Lemma C4_unreserve_outcomes_witness :
  items (db Scenario.world_sam) !! "i1" = Some Scenario.bike_sam /\
  (Js.falsy (Some "Sam") = true ->
     ItemService.unreserveItem "i1" (Some "Sam") None Scenario.world_sam
     = (Throw "Only the person who reserved can unreserve", Scenario.world_sam) /\
     kind_of_message "Only the person who reserved can unreserve" = Forbidden) /\
  (forall who, Some "Sam" = Some who -> Js.truthy who = true ->
     let upd := updateMany (ItemService.unreserve_where "i1" who)
                           ItemService.unreserve_data (db Scenario.world_sam) in
     (snd upd = 0%nat <->
        ~ (isReserved Scenario.bike_sam = true /\ reservedBy Scenario.bike_sam = Some who)) /\
     match ItemService.unreserveItem "i1" (Some "Sam") None Scenario.world_sam with
     | (Throw msg, w') =>
         snd upd = 0%nat /\ msg = "Only the person who reserved can unreserve" /\
         kind_of_message msg = Forbidden /\ w' = Scenario.world_sam
     | (Ok updated, w') =>
         snd upd = 1%nat /\ db w' = fst upd /\
         items (db w') = <[ "i1" := unreserved_row Scenario.bike_sam]>
                           (items (db Scenario.world_sam)) /\
         updated = unreserved_row Scenario.bike_sam /\
         isReserved updated = false /\ reservedBy updated = None
     end).
Proof.
  split; [reflexivity|].
  apply (C4_unreserve_outcomes "i1" (Some "Sam") None Scenario.world_sam Scenario.bike_sam).
  reflexivity.
Defined.

(** C4, the claim as stated fails: Sam holds the item and Kim asks to
    unreserve it.  The conditional update affects zero rows, and the error is
    the very one thrown for a missing identity, answered 403: a Forbidden,
    not a Conflict. *)
Lemma C4_wrong_holder_is_forbidden :
  snd (updateMany (ItemService.unreserve_where "i1" "Kim")
                  ItemService.unreserve_data (db Scenario.world_sam)) = 0%nat /\
  ItemService.unreserveItem "i1" (Some "Kim") None Scenario.world_sam
  = ItemService.unreserveItem "i1" None None Scenario.world_sam /\
  ItemService.unreserveItem "i1" (Some "Kim") None Scenario.world_sam
  = (Throw "Only the person who reserved can unreserve", Scenario.world_sam) /\
  fst (ItemRoutes.post_unreserve "i1" (Scenario.guest "Kim") Scenario.two_viewers
         Scenario.world_sam)
  = {| status := 403; body := ErrorJson "Only the person who reserved can unreserve" |} /\
  ~ (exists msg w',
       ItemService.unreserveItem "i1" (Some "Kim") None Scenario.world_sam = (Throw msg, w')
       /\ kind_of_message msg = Conflict).
Proof.
  repeat split; try reflexivity.
  intros (msg & w' & Hrun & Hkind).
  vm_compute in Hrun. injection Hrun as <- _. vm_compute in Hkind. discriminate.
Qed.

(** ** Contributions *)

Lemma item_update_found (itemId : string) (d : ItemData) (w : World) (i : Item) :
  items (db w) !! itemId = Some i ->
  ItemService.item_update itemId d w
  = (Ok (apply_data d i),
     {| db := set_items (db w) (<[itemId := apply_data d i]> (items (db w)));
        outbox := outbox w |}).
Proof.
  intros Hi. unfold ItemService.item_update. unfold_handlers.
  unfold update. by rewrite Hi.
Qed.

Lemma apply_increment_data (i : Item) (a : Z) :
  apply_data (ContributionRoutes.increment_data a) i
  = {| wishlistId := wishlistId i; title := title i; price := price i;
       isReserved := isReserved i; reservedBy := reservedBy i;
       collectedAmount := collectedAmount i + a; hypeCount := hypeCount i |}.
Proof. unfold apply_data; simpl. f_equal; lia. Qed.

Lemma apply_funded_data (i : Item) :
  apply_data ContributionRoutes.funded_data i
  = {| wishlistId := wishlistId i; title := title i; price := price i;
       isReserved := true; reservedBy := Some "Group contribution";
       collectedAmount := collectedAmount i; hypeCount := hypeCount i |}.
Proof. unfold apply_data; simpl. f_equal; lia. Qed.

(** The four ways the transaction callback throws, and its one way to
    return. *)
Lemma contribute_item_missing (userId : option string) (name : string)
    (data : ContributionRoutes.ContributionBody) (w : World) :
  items (db w) !! ContributionRoutes.b_itemId data = None ->
  ContributionRoutes.contribute userId name data w = (Throw "Item not found", w).
Proof.
  intros Hitem.
  unfold ContributionRoutes.contribute, transaction, ContributionRoutes.contribute_body.
  unfold_handlers. unfold findUnique_include_wishlist. rewrite Hitem; simpl.
  by rewrite world_eta.
Qed.

Lemma contribute_wishlist_missing (userId : option string) (name : string)
    (data : ContributionRoutes.ContributionBody) (w : World) (item : Item) :
  items (db w) !! ContributionRoutes.b_itemId data = Some item ->
  wishlists (db w) !! wishlistId item = None ->
  ContributionRoutes.contribute userId name data w
  = (Throw "Cannot read properties of null (reading 'ownerId')", w).
Proof.
  intros Hitem Hwl.
  unfold ContributionRoutes.contribute, transaction, ContributionRoutes.contribute_body.
  unfold_handlers. unfold findUnique_include_wishlist. rewrite Hitem, Hwl; simpl.
  by rewrite world_eta.
Qed.

Lemma contribute_owner (name : string)
    (data : ContributionRoutes.ContributionBody) (w : World) (item : Item) (wl : Wishlist) :
  items (db w) !! ContributionRoutes.b_itemId data = Some item ->
  wishlists (db w) !! wishlistId item = Some wl ->
  ContributionRoutes.contribute (Some (ownerId wl)) name data w
  = (Throw "Cannot contribute to your own items", w).
Proof.
  intros Hitem Hwl.
  unfold ContributionRoutes.contribute, transaction, ContributionRoutes.contribute_body.
  unfold_handlers. unfold findUnique_include_wishlist. rewrite Hitem, Hwl; simpl.
  unfold Js.strict_eq. rewrite bool_decide_eq_true_2 by done.
  by rewrite world_eta.
Qed.

Lemma contribute_reserved (userId : option string) (name : string)
    (data : ContributionRoutes.ContributionBody) (w : World) (item : Item) (wl : Wishlist) :
  items (db w) !! ContributionRoutes.b_itemId data = Some item ->
  wishlists (db w) !! wishlistId item = Some wl ->
  userId <> Some (ownerId wl) ->
  isReserved item = true ->
  ContributionRoutes.contribute userId name data w
  = (Throw "Item is already reserved/fully funded", w).
Proof.
  intros Hitem Hwl Hown Hres.
  unfold ContributionRoutes.contribute, transaction, ContributionRoutes.contribute_body.
  unfold_handlers. unfold findUnique_include_wishlist. rewrite Hitem, Hwl; simpl.
  unfold Js.strict_eq. rewrite bool_decide_eq_false_2 by done.
  rewrite Hres. by rewrite world_eta.
Qed.

Lemma contribute_accepted (userId : option string) (name : string)
    (data : ContributionRoutes.ContributionBody) (w : World) (item : Item) (wl : Wishlist) :
  items (db w) !! ContributionRoutes.b_itemId data = Some item ->
  wishlists (db w) !! wishlistId item = Some wl ->
  userId <> Some (ownerId wl) ->
  isReserved item = false ->
  ContributionRoutes.contribute userId name data w
  = (Ok (contribution_result userId name data item),
     {| db := {| items := <[ContributionRoutes.b_itemId data :=
                             contributed_row item (ContributionRoutes.b_amount data)]>
                            (items (db w));
                 wishlists := wishlists (db w);
                 contributions := contributions (db w)
                                  ++ [contribution_record userId name data] |};
        outbox := outbox w |}).
Proof.
  intros Hitem Hwl Hown Hres.
  unfold ContributionRoutes.contribute, transaction, ContributionRoutes.contribute_body.
  unfold bind at 1. unfold ItemService.item_findUnique_include_wishlist at 1.
  unfold bind at 1, get_db at 1, ret at 1.
  unfold findUnique_include_wishlist. rewrite Hitem, Hwl.
  unfold bind at 1. unfold ItemService.wishlist_ownerId, ret at 1.
  unfold Js.strict_eq. rewrite bool_decide_eq_false_2 by done.
  rewrite Hres.
  unfold bind at 1. unfold ContributionRoutes.contribution_create.
  unfold bind at 1, get_db at 1, bind at 1, put_db at 1, ret at 1.
  unfold bind at 1.
  rewrite (item_update_found _ _ _ item) by (simpl; exact Hitem).
  rewrite apply_increment_data. rewrite Hres.
  unfold ContributionRoutes.fully_funded at 1. cbn [price collectedAmount isReserved negb].
  unfold contribution_result, contributed_row, contribution_record,
    ContributionRoutes.fully_funded.
  cbn [price collectedAmount isReserved].
  unfold bind at 1.
  match goal with |- context [andb ?b true] => destruct b eqn:Hfund end;
    cbn [andb].
  - unfold bind at 1.
    erewrite item_update_found by (cbn [db set_items items]; apply lookup_insert_eq).
    rewrite apply_funded_data. unfold ret. cbn.
    by rewrite insert_insert_eq.
  - unfold ret. cbn. done.
Qed.

Lemma contribute_throw_unchanged (userId : option string) (name : string)
    (data : ContributionRoutes.ContributionBody) (w w' : World) (msg : string) :
  ContributionRoutes.contribute userId name data w = (Throw msg, w') -> w' = w.
Proof.
  destruct (items (db w) !! ContributionRoutes.b_itemId data) as [item|] eqn:Hitem.
  2: { rewrite contribute_item_missing by done. by intros [= _ <-]. }
  destruct (wishlists (db w) !! wishlistId item) as [wl|] eqn:Hwl.
  2: { rewrite (contribute_wishlist_missing _ _ _ _ item) by done. by intros [= _ <-]. }
  destruct (decide (userId = Some (ownerId wl))) as [->|Hown].
  { rewrite (contribute_owner _ _ _ item wl) by done. by intros [= _ <-]. }
  destruct (isReserved item) eqn:Hres.
  { rewrite (contribute_reserved _ _ _ _ item wl) by done. by intros [= _ <-]. }
  rewrite (contribute_accepted _ _ _ _ item wl) by done. discriminate.
Qed.

(** C5 (as the code has it). When the item is reserved, contribute fails and
    writes nothing: no Contribution row is created and [collectedAmount] is
    not incremented.  The failure is "Item is already reserved/fully funded"
    (a Conflict) unless the caller is the authenticated owner of the
    wishlist, for whom the owner check comes first and answers "Cannot
    contribute to your own items" (Forbidden). *)
Theorem C5_contribute_on_reserved_item
    (userId : option string) (name : string)
    (data : ContributionRoutes.ContributionBody) (w : World)
    (item : Item) (wl : Wishlist) :
  items (db w) !! ContributionRoutes.b_itemId data = Some item ->
  wishlists (db w) !! wishlistId item = Some wl ->
  isReserved item = true ->
  exists msg,
    ContributionRoutes.contribute userId name data w = (Throw msg, w) /\
    (userId <> Some (ownerId wl) ->
       msg = "Item is already reserved/fully funded" /\ kind_of_message msg = Conflict) /\
    (userId = Some (ownerId wl) ->
       msg = "Cannot contribute to your own items" /\ kind_of_message msg = Forbidden).
Proof.
  intros Hitem Hwl Hres.
  destruct (decide (userId = Some (ownerId wl))) as [->|Hown].
  - exists "Cannot contribute to your own items".
    rewrite (contribute_owner _ _ _ item wl) by done. by repeat split.
  - exists "Item is already reserved/fully funded".
    rewrite (contribute_reserved _ _ _ _ item wl) by done. by repeat split.
Qed.

Lemma C5_contribute_on_reserved_item_witness :
  let data := {| ContributionRoutes.b_itemId := "i1"; ContributionRoutes.b_amount := 20;
                 ContributionRoutes.b_message := None;
                 ContributionRoutes.b_nickname := Some "Lee" |} in
  items (db Scenario.world_sam) !! ContributionRoutes.b_itemId data = Some Scenario.bike_sam /\
  wishlists (db Scenario.world_sam) !! wishlistId Scenario.bike_sam = Some Scenario.alices_list /\
  isReserved Scenario.bike_sam = true /\
  exists msg,
    ContributionRoutes.contribute None "Lee" data Scenario.world_sam
    = (Throw msg, Scenario.world_sam) /\
    (None <> Some (ownerId Scenario.alices_list) ->
       msg = "Item is already reserved/fully funded" /\ kind_of_message msg = Conflict) /\
    (None = Some (ownerId Scenario.alices_list) ->
       msg = "Cannot contribute to your own items" /\ kind_of_message msg = Forbidden).
Proof.
  intros data. split; [reflexivity|]. split; [reflexivity|]. split; [reflexivity|].
  apply (C5_contribute_on_reserved_item None "Lee" data Scenario.world_sam
           Scenario.bike_sam Scenario.alices_list); reflexivity.
Defined.

(** C5, the claim as stated fails: the item is reserved and the logged-in
    owner contributes to it.  The call fails with the owner check's
    Forbidden, not with a Conflict. *)
Lemma C5_owner_on_reserved_item_is_forbidden :
  let data := {| ContributionRoutes.b_itemId := "i1"; ContributionRoutes.b_amount := 20;
                 ContributionRoutes.b_message := None;
                 ContributionRoutes.b_nickname := None |} in
  isReserved Scenario.bike_sam = true /\
  ContributionRoutes.contribute (Some "alice") "alice@example.org" data Scenario.world_sam
  = (Throw "Cannot contribute to your own items", Scenario.world_sam) /\
  kind_of_message "Cannot contribute to your own items" = Forbidden /\
  fst (ContributionRoutes.post_contribution (fun _ => true) (Some Scenario.alice) data
         Scenario.two_viewers Scenario.world_sam)
  = {| status := 403; body := ErrorJson "Cannot contribute to your own items" |} /\
  ~ (exists msg w',
       ContributionRoutes.contribute (Some "alice") "alice@example.org" data
         Scenario.world_sam = (Throw msg, w')
       /\ kind_of_message msg = Conflict).
Proof.
  intros data. repeat split; try reflexivity.
  intros (msg & w' & Hrun & Hkind).
  vm_compute in Hrun. injection Hrun as <- _. vm_compute in Hkind. discriminate.
Qed.






(** ** Failures write nothing *)

Lemma reserveItem_throw_unchanged (itemId holderLabel : string)
    (requester : option string) (io : option Adapter) (w w' : World) (msg : string) :
  ItemService.reserveItem itemId holderLabel requester io w = (Throw msg, w') -> w' = w.
Proof.
  destruct (items (db w) !! itemId) as [item|] eqn:Hitem.
  2: { rewrite reserveItem_item_missing by done. by intros [= _ <-]. }
  destruct (wishlists (db w) !! wishlistId item) as [wl|] eqn:Hwl.
  2: { rewrite (reserveItem_wishlist_missing _ _ _ _ _ item) by done. by intros [= _ <-]. }
  destruct (decide (requester = Some (ownerId wl))) as [->|Hown].
  { rewrite (reserveItem_owner _ _ _ _ item wl) by done. by intros [= _ <-]. }
  destruct (isReserved item) eqn:Hres.
  { rewrite (reserveItem_already_reserved _ _ _ _ _ item wl) by done. by intros [= _ <-]. }
  rewrite (reserveItem_accepted _ _ _ _ _ item wl) by done. discriminate.
Qed.

Lemma unreserveItem_throw_unchanged (itemId : string) (requester : option string)
    (io : option Adapter) (w w' : World) (msg : string) :
  ItemService.unreserveItem itemId requester io w = (Throw msg, w') -> w' = w.
Proof.
  destruct (items (db w) !! itemId) as [item|] eqn:Hitem.
  2: { rewrite unreserveItem_item_missing by done. by intros [= _ <-]. }
  destruct (Js.falsy requester) eqn:Hfalsy.
  { rewrite (unreserveItem_no_identity _ _ _ _ item) by done. by intros [= _ <-]. }
  destruct requester as [who|]; [|done]. simpl in Hfalsy.
  apply negb_false_iff in Hfalsy.
  destruct (isReserved item && bool_decide (reservedBy item = Some who)) eqn:Hholds.
  - rewrite (unreserveItem_accepted _ _ _ _ item) by done. discriminate.
  - rewrite (unreserveItem_not_holder _ _ _ _ item) by done. by intros [= _ <-].
Qed.

Lemma post_reserve_failure_unchanged (itemId : string) (req : Request) (io : Adapter)
    (w : World) :
  status (fst (ItemRoutes.post_reserve itemId req io w)) <> 200%Z ->
  snd (ItemRoutes.post_reserve itemId req io w) = w.
Proof.
  unfold ItemRoutes.post_reserve.
  destruct (Js.or_else (user_email req) (nickname req)) as [who|]; [|done].
  destruct (Js.truthy who); simpl; [|done].
  destruct (ItemService.reserveItem itemId who (user_id req) (Some io) w)
    as [[r|msg] w'] eqn:Hrun; simpl; [done|].
  apply reserveItem_throw_unchanged in Hrun. subst w'.
  by repeat case_match.
Qed.

Lemma post_unreserve_failure_unchanged (itemId : string) (req : Request) (io : Adapter)
    (w : World) :
  status (fst (ItemRoutes.post_unreserve itemId req io w)) <> 200%Z ->
  snd (ItemRoutes.post_unreserve itemId req io w) = w.
Proof.
  unfold ItemRoutes.post_unreserve.
  destruct (ItemService.unreserveItem itemId
              (Js.or_else (user_email req) (nickname req)) (Some io) w)
    as [[r|msg] w'] eqn:Hrun; simpl; [done|].
  apply unreserveItem_throw_unchanged in Hrun. subst w'.
  by repeat case_match.
Qed.

Lemma error_response_not_ok (msg : string) :
  status (ContributionRoutes.error_response msg) <> 200%Z.
Proof. unfold ContributionRoutes.error_response. by repeat case_match. Qed.

Lemma post_contribution_failure_unchanged (is_uuid : string -> bool)
    (u : option UserPayload) (data : ContributionRoutes.ContributionBody)
    (io : Adapter) (w : World) :
  status (fst (ContributionRoutes.post_contribution is_uuid u data io w)) <> 200%Z ->
  snd (ContributionRoutes.post_contribution is_uuid u data io w) = w.
Proof.
  unfold ContributionRoutes.post_contribution, ContributionRoutes.schema_parse.
  destruct (is_uuid (ContributionRoutes.b_itemId data)); simpl; [|done].
  destruct (0 <? ContributionRoutes.b_amount data)%Z; simpl; [|done].
  unfold ret.
  destruct (Js.or_else (email <$> u) (ContributionRoutes.b_nickname data)) as [who|];
    [|done].
  destruct (Js.truthy who); simpl; [|done].
  destruct (ContributionRoutes.contribute (id <$> u) who data w)
    as [[r|msg] w'] eqn:Hrun; simpl; [done|].
  by apply contribute_throw_unchanged in Hrun.
Qed.

(** C6. A reserve, unreserve or contribute call that fails, whatever the
    failure (item not found, owner, already reserved, wrong holder, missing
    nickname, rejected body), ends in the world it started from: the same
    items, the same contributions, nothing emitted.  This holds for the
    service functions when they throw and for the routes whenever they answer
    anything but 200. *)
Theorem C6_failures_write_nothing (is_uuid : string -> bool) :
  (forall itemId holderLabel requester io w msg w',
     ItemService.reserveItem itemId holderLabel requester io w = (Throw msg, w') ->
     w' = w) /\
  (forall itemId requester io w msg w',
     ItemService.unreserveItem itemId requester io w = (Throw msg, w') -> w' = w) /\
  (forall userId name data w msg w',
     ContributionRoutes.contribute userId name data w = (Throw msg, w') -> w' = w) /\
  (forall itemId req io w,
     status (fst (ItemRoutes.post_reserve itemId req io w)) <> 200%Z ->
     snd (ItemRoutes.post_reserve itemId req io w) = w) /\
  (forall itemId req io w,
     status (fst (ItemRoutes.post_unreserve itemId req io w)) <> 200%Z ->
     snd (ItemRoutes.post_unreserve itemId req io w) = w) /\
  (forall u data io w,
     status (fst (ContributionRoutes.post_contribution is_uuid u data io w)) <> 200%Z ->
     snd (ContributionRoutes.post_contribution is_uuid u data io w) = w).
Proof.
  repeat split; intros.
  - by eapply reserveItem_throw_unchanged.
  - by eapply unreserveItem_throw_unchanged.
  - by eapply contribute_throw_unchanged.
  - by apply post_reserve_failure_unchanged.
  - by apply post_unreserve_failure_unchanged.
  - by apply post_contribution_failure_unchanged.
Qed.

Lemma C6_failures_write_nothing_witness :
  let r := ItemRoutes.post_reserve "i1" (Scenario.guest "Kim") Scenario.two_viewers
             Scenario.world_sam in
  fst r = {| status := 400; body := ErrorJson "Item is already reserved" |} /\
  status (fst r) <> 200%Z /\
  snd r = Scenario.world_sam.
Proof.
  intros r. split; [reflexivity|]. split; [discriminate|].
  apply (proj1 (proj2 (proj2 (proj2 (C6_failures_write_nothing (fun _ => true)))))).
  discriminate.
Defined.

(** ** The owner check looks at the authenticated user only *)





(** ** Spoiler protection *)

Lemma included_items_spec (wid : string) (st : Store) (v : WishlistRoutes.ItemView) :
  v ∈ WishlistRoutes.included_items wid st <->
  exists i, items st !! WishlistRoutes.v_id v = Some i /\ wishlistId i = wid /\
            WishlistRoutes.v_row v = i /\
            WishlistRoutes.v_contributions v
            = WishlistRoutes.contributions_of (WishlistRoutes.v_id v) st.
Proof.
  unfold WishlistRoutes.included_items. rewrite list_elem_of_fmap. split.
  - intros ([k i] & -> & Hin). apply elem_of_map_to_list in Hin.
    apply map_lookup_filter_Some in Hin as [Hi Hwid]. simpl in *.
    by exists i.
  - intros (i & Hi & Hwid & Hrow & Hcs). exists (WishlistRoutes.v_id v, i). split.
    + destruct v; simpl in *. by subst.
    + apply elem_of_map_to_list. by apply map_lookup_filter_Some.
Qed.

Lemma hide_spoilers_hides (l : list WishlistRoutes.ItemView) :
  Forall (fun v => isReserved (WishlistRoutes.v_row v) = false /\
                   reservedBy (WishlistRoutes.v_row v) = None /\
                   collectedAmount (WishlistRoutes.v_row v) = 0%Z /\
                   WishlistRoutes.v_contributions v = [])
         (WishlistRoutes.hide_spoilers <$> l).
Proof. apply Forall_fmap, Forall_forall. intros v _. by simpl. Qed.

(** C7. Reading a wishlist that exists: when [req.user?.id] is the owner's
    id, the read succeeds and every item of the response is a stored item of
    the wishlist with [isReserved = false], [reservedBy = null],
    [collectedAmount = 0] and no contributions, whatever is stored; for any
    other requester the items that are returned (the wishlist being public)
    are the stored rows with their stored contributions, unchanged. *)
Theorem C7_spoiler_filter
    (wid : string) (req : Request) (st : Store) (wl : Wishlist) :
  wishlists st !! wid = Some wl ->
  (user_id req = Some (ownerId wl) ->
     exists j, WishlistRoutes.get_wishlist wid req st = inr j /\
       WishlistRoutes.j_isOwner j = true /\
       WishlistRoutes.j_items j
       = WishlistRoutes.hide_spoilers <$> WishlistRoutes.included_items wid st /\
       Forall (fun v => isReserved (WishlistRoutes.v_row v) = false /\
                        reservedBy (WishlistRoutes.v_row v) = None /\
                        collectedAmount (WishlistRoutes.v_row v) = 0%Z /\
                        WishlistRoutes.v_contributions v = [])
              (WishlistRoutes.j_items j)) /\
  (user_id req <> Some (ownerId wl) ->
     WishlistRoutes.get_wishlist wid req st
     = if isPublic wl
       then inr {| WishlistRoutes.j_wishlist := wl;
                   WishlistRoutes.j_items := WishlistRoutes.included_items wid st;
                   WishlistRoutes.j_isOwner := false |}
       else inl WishlistRoutes.not_found) /\
  (forall v, v ∈ WishlistRoutes.included_items wid st <->
     exists i, items st !! WishlistRoutes.v_id v = Some i /\ wishlistId i = wid /\
               WishlistRoutes.v_row v = i /\
               WishlistRoutes.v_contributions v
               = WishlistRoutes.contributions_of (WishlistRoutes.v_id v) st).
Proof.
  intros Hwl. repeat apply conj.
  - intros Hown. unfold WishlistRoutes.get_wishlist. rewrite Hwl.
    unfold Js.strict_eq. rewrite bool_decide_eq_true_2 by done.
    rewrite andb_false_r. eexists. split; [done|]. simpl.
    split; [done|]. split; [done|]. apply hide_spoilers_hides.
  - intros Hown. unfold WishlistRoutes.get_wishlist. rewrite Hwl.
    unfold Js.strict_eq. rewrite bool_decide_eq_false_2 by done.
    by destruct (isPublic wl).
  - apply included_items_spec.
Qed.

Lemma C7_spoiler_filter_witness :
  let req := {| user := Some Scenario.alice; nickname := None |} in
  wishlists Scenario.store_sam !! "w1" = Some Scenario.alices_list /\
  user_id req = Some (ownerId Scenario.alices_list) /\
  exists j, WishlistRoutes.get_wishlist "w1" req Scenario.store_sam = inr j /\
    WishlistRoutes.j_isOwner j = true /\
    WishlistRoutes.j_items j
    = WishlistRoutes.hide_spoilers <$> WishlistRoutes.included_items "w1" Scenario.store_sam /\
    Forall (fun v => isReserved (WishlistRoutes.v_row v) = false /\
                     reservedBy (WishlistRoutes.v_row v) = None /\
                     collectedAmount (WishlistRoutes.v_row v) = 0%Z /\
                     WishlistRoutes.v_contributions v = [])
           (WishlistRoutes.j_items j).
Proof.
  intros req. split; [reflexivity|]. split; [reflexivity|].
  apply (proj1 (C7_spoiler_filter "w1" req Scenario.store_sam Scenario.alices_list
                  eq_refl)).
  reflexivity.
Defined.

(** ** The reservation fields agree *)





Section Preserves.

Context {A B : Type}.





End Preserves.























(** ** Who receives an event *)

(** [io.emit] reaches every connected socket, [io.to(room).emit] the members
    of the room. *)
Lemma emit_recipients (a : Adapter) (event : string) (p : Payload) (sid : string) :
  sid ∈ p_to (emit a event p) <-> is_Some (sids a !! sid).
Proof. unfold emit; simpl. apply elem_of_dom. Qed.

Lemma to_emit_recipients (a : Adapter) (room event : string) (p : Payload) (sid : string) :
  sid ∈ p_to (to_emit a room event p) <-> sid ∈ default ∅ (rooms a !! room).
Proof. done. Qed.

(** A successful reserve sends ITEM_RESERVED with [io.emit]. *)
Lemma reserveItem_emits (itemId holderLabel : string) (requester : option string)
    (io : Adapter) (w w' : World) (updated : Item) :
  ItemService.reserveItem itemId holderLabel requester (Some io) w = (Ok updated, w') ->
  exists item,
    items (db w) !! itemId = Some item /\
    outbox w' = (outbox w
                 ++ [emit io (ItemService.channel (wishlistId item))
                          (ITEM_RESERVED (wishlistId item) itemId true holderLabel)])%list.
Proof.
  destruct (items (db w) !! itemId) as [item|] eqn:Hitem.
  2: { by rewrite reserveItem_item_missing. }
  destruct (wishlists (db w) !! wishlistId item) as [wl|] eqn:Hwl.
  2: { by rewrite (reserveItem_wishlist_missing _ _ _ _ _ item). }
  destruct (decide (requester = Some (ownerId wl))) as [->|Hown].
  { by rewrite (reserveItem_owner _ _ _ _ item wl). }
  destruct (isReserved item) eqn:Hres.
  { by rewrite (reserveItem_already_reserved _ _ _ _ _ item wl). }
  rewrite (reserveItem_accepted _ _ _ _ _ item wl) by done.
  intros [= _ <-]. by exists item.
Qed.

(** C8, on the code: socket "A" has joined wishlist "w1" and socket "B" has
    joined wishlist "w2" only.  Sam reserves an item of "w1".  The
    ITEM_RESERVED event for "w1" is sent to "B" as well, which is not in the
    room of "w1". *)
Theorem C8_reserve_event_reaches_other_wishlist :
  let r := ItemRoutes.post_reserve "i1" (Scenario.guest "Sam") Scenario.two_viewers
             Scenario.world0 in
  fst r = {| status := 200; body := MessageJson "Item reserved!" |} /\
  socketRooms "B" Scenario.two_viewers = {[ "B"; "wishlist:w2" ]} /\
  ("B" ∉ (default ∅ (rooms Scenario.two_viewers !! "wishlist:w1"))) /\
  exists p,
    outbox (snd r) = [p] /\
    p_event p = "wishlist:w1" /\
    p_payload p = ITEM_RESERVED "w1" "i1" true "Sam" /\
    "A" ∈ p_to p /\ "B" ∈ p_to p.
Proof.
  intros r. split; [reflexivity|]. split; [compute_done|]. split; [compute_done|].
  exists (emit Scenario.two_viewers "wishlist:w1" (ITEM_RESERVED "w1" "i1" true "Sam")).
  split; [vm_compute; reflexivity|].
  split; [reflexivity|]. split; [reflexivity|].
  split; apply emit_recipients; compute_done.
Qed.

(** The sibling path: a hype on the same item is sent with [io.to(room)]
    and stays in the room of "w1". *)
Example hype_event_stays_in_room :
  let r := ItemRoutes.post_hype "i1" Scenario.two_viewers Scenario.world0 in
  exists p, outbox (snd r) = [p] /\ p_payload p = Hype "i1" 1 /\
            "A" ∈ p_to p /\ "B" ∉ p_to p.
Proof.
  intros r.
  exists (to_emit Scenario.two_viewers "wishlist:w1" "hype" (Hype "i1" 1)).
  split; [vm_compute; reflexivity|]. split; [reflexivity|].
  split; compute_done.
Qed.

(** ** Presence *)

Lemma members_addAll (id room room' : string) (a : Adapter) :
  members (addAll id room a) room'
  = if decide (room = room') then {[id]} ∪ members a room else members a room'.
Proof.
  unfold members, addAll; simpl. case_decide as Heq.
  - subst. by rewrite lookup_insert_eq.
  - by rewrite lookup_insert_ne.
Qed.

Lemma socketRooms_addAll (id room sid : string) (a : Adapter) :
  socketRooms sid (addAll id room a)
  = if decide (id = sid) then {[room]} ∪ socketRooms id a else socketRooms sid a.
Proof.
  unfold socketRooms, addAll; simpl. case_decide as Heq.
  - subst. by rewrite lookup_insert_eq.
  - by rewrite lookup_insert_ne.
Qed.

Lemma lookup__del (room id room' : string) (rs : gmap string (gset string)) :
  default ∅ (_del room id rs !! room')
  = if decide (room = room') then default ∅ (rs !! room) ∖ {[id]}
    else default ∅ (rs !! room').
Proof.
  unfold _del. destruct (rs !! room) as [m|] eqn:Hm.
  - case_decide as Hsize.
    + case_decide as Heq.
      * subst. rewrite lookup_delete_eq; simpl.
        apply size_empty_iff in Hsize. by apply leibniz_equiv in Hsize.
      * by rewrite lookup_delete_ne.
    + case_decide as Heq.
      * subst. by rewrite lookup_insert_eq.
      * by rewrite lookup_insert_ne.
  - destruct (decide (room = room')) as [->|]; [|done]. rewrite Hm; simpl. set_solver.
Qed.

Lemma members_del (id room room' : string) (a : Adapter) :
  members (del id room a) room'
  = if decide (room = room') then members a room ∖ {[id]} else members a room'.
Proof. unfold members, del; simpl. apply lookup__del. Qed.

Lemma socketRooms_del (id room sid : string) (a : Adapter) :
  socketRooms sid (del id room a)
  = if decide (id = sid) then socketRooms id a ∖ {[room]} else socketRooms sid a.
Proof.
  unfold socketRooms, del; simpl.
  destruct (sids a !! id) as [rs|] eqn:Hrs.
  - case_decide as Heq.
    + subst. by rewrite lookup_insert_eq.
    + by rewrite lookup_insert_ne.
  - destruct (decide (id = sid)) as [->|]; [|done]. rewrite Hrs; simpl. set_solver.
Qed.

Lemma lookup_foldr__del (id room' : string) (l : list string)
    (rs : gmap string (gset string)) :
  default ∅ (foldr (fun room acc => _del room id acc) rs l !! room')
  = if decide (room' ∈ l) then default ∅ (rs !! room') ∖ {[id]}
    else default ∅ (rs !! room').
Proof.
  induction l as [|room l IH]; cbn [foldr].
  - destruct (decide (room' ∈ [])) as [Hin|]; [by apply elem_of_nil in Hin|done].
  - rewrite lookup__del. destruct (decide (room = room')) as [->|Hne].
    + rewrite IH.
      destruct (decide (room' ∈ room' :: l)) as [_|Hn]; [|exfalso; apply Hn; left].
      case_decide; set_solver.
    + rewrite IH.
      destruct (decide (room' ∈ l)) as [Hin|Hin],
               (decide (room' ∈ room :: l)) as [Hin'|Hin']; try done.
      * exfalso. apply Hin'. by right.
      * exfalso. apply elem_of_cons in Hin' as [->|?]; done.
Qed.

Lemma members_delAll (id room' : string) (a : Adapter) :
  members (delAll id a) room'
  = if decide (room' ∈ socketRooms id a) then members a room' ∖ {[id]}
    else members a room'.
Proof.
  unfold members, delAll, socketRooms.
  destruct (sids a !! id) as [rs|] eqn:Hrs; simpl.
  - rewrite lookup_foldr__del.
    repeat case_decide; try done; exfalso; set_solver.
  - case_decide as Hin; [|done]. set_solver.
Qed.

Lemma socketRooms_delAll (id sid : string) (a : Adapter) :
  socketRooms sid (delAll id a)
  = if decide (id = sid) then ∅ else socketRooms sid a.
Proof.
  unfold socketRooms, delAll.
  destruct (sids a !! id) as [rs|] eqn:Hrs; simpl.
  - case_decide as Heq.
    + subst. by rewrite lookup_delete_eq.
    + by rewrite lookup_delete_ne.
  - case_decide as Heq; [|done]. subst. by rewrite Hrs.
Qed.

Lemma sound_empty : sound empty_adapter.
Proof. intros sid room. unfold socketRooms; simpl. rewrite lookup_empty. set_solver. Qed.

Lemma sound_addAll (id room : string) (a : Adapter) : sound a -> sound (addAll id room a).
Proof.
  intros Ha sid room'. rewrite socketRooms_addAll, members_addAll.
  specialize (Ha sid room'). pose proof (Ha' := Ha).
  repeat case_decide; subst; set_solver.
Qed.

Lemma sound_del (id room : string) (a : Adapter) : sound a -> sound (del id room a).
Proof.
  intros Ha sid room'. rewrite socketRooms_del, members_del.
  specialize (Ha sid room').
  repeat case_decide; subst; set_solver.
Qed.

Lemma sound_delAll (id : string) (a : Adapter) : sound a -> sound (delAll id a).
Proof.
  intros Ha sid room'. rewrite socketRooms_delAll, members_delAll.
  specialize (Ha sid room').
  repeat case_decide; subst; set_solver.
Qed.

Lemma reachable_sound (a : Adapter) : reachable a -> sound a.
Proof.
  induction 1 as [|s a _ IH]; [apply sound_empty|].
  destruct s; simpl.
  - by apply sound_addAll.
  - by apply sound_addAll.
  - by apply sound_del.
  - by apply sound_delAll.
Qed.

Lemma substring_all (s : string) : String.substring 0 (String.length s) s = s.
Proof. induction s as [|c s IH]; simpl; [done|]. by rewrite IH. Qed.

Lemma replace_wishlist_channel (wishlistId : string) :
  Presence.replace_wishlist ("wishlist:" ++ wishlistId) = wishlistId.
Proof.
  unfold Presence.replace_wishlist. simpl. rewrite Nat.sub_0_r. apply substring_all.
Qed.

Lemma prefix_append (s1 s2 : string) :
  String.prefix s1 s2 = true -> exists t, s2 = s1 ++ t.
Proof.
  revert s2. induction s1 as [|a s1 IH]; intros s2 H.
  - by exists s2.
  - destruct s2 as [|b s2]; [discriminate|]. simpl in H.
    destruct (Ascii.ascii_dec a b) as [<-|]; [|discriminate].
    apply IH in H as [t ->]. by exists t.
Qed.

Lemma startsWith_wishlist_channel (room : string) :
  Presence.startsWith_wishlist room = true <->
  exists wishlistId, room = "wishlist:" ++ wishlistId.
Proof.
  unfold Presence.startsWith_wishlist. split.
  - apply prefix_append.
  - intros [wishlistId ->]. simpl. by destruct wishlistId.
Qed.

(** The packet the disconnecting handler sends for one wishlist room of a
    socket: addressed to the room as it is, counting the room without the
    socket. *)
Lemma disconnecting_room_channel (a : Adapter) (sid wishlistId : string) :
  sound a ->
  "wishlist:" ++ wishlistId ∈ socketRooms sid a ->
  Presence.disconnecting_room a ("wishlist:" ++ wishlistId)
  = [to_emit a ("wishlist:" ++ wishlistId) ("viewers:" ++ wishlistId)
       (Viewers (Z.of_nat (size (members (delAll sid a) ("wishlist:" ++ wishlistId)))))].
Proof.
  intros Ha Hin. unfold Presence.disconnecting_room.
  rewrite (proj2 (startsWith_wishlist_channel _)) by by eexists.
  rewrite replace_wishlist_channel.
  rewrite members_delAll, decide_True by done.
  specialize (Ha _ _ Hin). unfold members in *.
  destruct (rooms a !! ("wishlist:" ++ wishlistId)) as [m|]; simpl in *; [|set_solver].
  do 3 f_equal.
  rewrite size_difference by set_solver. rewrite size_singleton.
  assert (size m ≠ 0%nat); [|lia].
  apply size_non_empty_iff. set_solver.
Qed.

Lemma disconnecting_packets (a : Adapter) (sid : string) (p : Packet) :
  sound a ->
  p ∈ Presence.disconnecting sid a <->
  exists wishlistId,
    "wishlist:" ++ wishlistId ∈ socketRooms sid a /\
    p = to_emit a ("wishlist:" ++ wishlistId) ("viewers:" ++ wishlistId)
          (Viewers (Z.of_nat (size (members (delAll sid a) ("wishlist:" ++ wishlistId))))).
Proof.
  intros Ha. unfold Presence.disconnecting. rewrite list_elem_of_bind. split.
  - intros (room & Hp & Hroom). apply elem_of_elements in Hroom.
    destruct (Presence.startsWith_wishlist room) eqn:Hstart.
    + apply startsWith_wishlist_channel in Hstart as [wishlistId ->].
      rewrite (disconnecting_room_channel a sid) in Hp by done.
      apply list_elem_of_singleton in Hp. by exists wishlistId.
    + unfold Presence.disconnecting_room in Hp. rewrite Hstart in Hp.
      by apply elem_of_nil in Hp.
  - intros (wishlistId & Hroom & ->). exists ("wishlist:" ++ wishlistId). split.
    + rewrite (disconnecting_room_channel a sid) by done. apply list_elem_of_here.
    + by apply elem_of_elements.
Qed.

Lemma join_wishlist_packet (sid wishlistId : string) (a : Adapter) :
  let a' := fst (Presence.join_wishlist sid wishlistId a) in
  members a' ("wishlist:" ++ wishlistId) = {[sid]} ∪ members a ("wishlist:" ++ wishlistId) /\
  snd (Presence.join_wishlist sid wishlistId a)
  = [to_emit a' ("wishlist:" ++ wishlistId) ("viewers:" ++ wishlistId)
       (Viewers (Z.of_nat (size (members a' ("wishlist:" ++ wishlistId)))))].
Proof.
  unfold Presence.join_wishlist. cbn [fst snd]. split.
  - by rewrite members_addAll, decide_True.
  - unfold members, addAll. cbn [rooms]. by rewrite lookup_insert_eq.
Qed.

Lemma leave_wishlist_packet (sid wishlistId : string) (a : Adapter) :
  let a' := fst (Presence.leave_wishlist sid wishlistId a) in
  members a' ("wishlist:" ++ wishlistId) = members a ("wishlist:" ++ wishlistId) ∖ {[sid]} /\
  snd (Presence.leave_wishlist sid wishlistId a)
  = [to_emit a' ("wishlist:" ++ wishlistId) ("viewers:" ++ wishlistId)
       (Viewers (Z.of_nat (size (members a' ("wishlist:" ++ wishlistId)))))].
Proof.
  unfold Presence.leave_wishlist. cbn [fst snd]. split.
  - by rewrite members_del, decide_True.
  - do 3 f_equal. unfold members, Presence.size_or.
    destruct (rooms (del sid ("wishlist:" ++ wishlistId) a) !! ("wishlist:" ++ wishlistId));
      cbn [default]; [done|]. by rewrite size_empty.
Qed.

(** C9. In every state the server can reach: join_wishlist adds the socket
    to the room and emits the size of the room with the socket in it;
    leave_wishlist removes it and emits the size of the room without it; on
    disconnect, exactly one count is emitted for each wishlist room the
    socket is in, and it is the size of that room once the socket is removed
    from it.  Every emitted count is the size of a set of sockets, so never
    negative.  A joins, B joins, A disconnects emits 1, 2, 1. *)
Theorem C9_presence_counts (a : Adapter) :
  reachable a ->
  (forall sid wishlistId,
     let a' := fst (Presence.join_wishlist sid wishlistId a) in
     members a' ("wishlist:" ++ wishlistId)
     = {[sid]} ∪ members a ("wishlist:" ++ wishlistId) /\
     snd (Presence.join_wishlist sid wishlistId a)
     = [to_emit a' ("wishlist:" ++ wishlistId) ("viewers:" ++ wishlistId)
          (Viewers (Z.of_nat (size (members a' ("wishlist:" ++ wishlistId)))))]) /\
  (forall sid wishlistId,
     let a' := fst (Presence.leave_wishlist sid wishlistId a) in
     members a' ("wishlist:" ++ wishlistId)
     = members a ("wishlist:" ++ wishlistId) ∖ {[sid]} /\
     snd (Presence.leave_wishlist sid wishlistId a)
     = [to_emit a' ("wishlist:" ++ wishlistId) ("viewers:" ++ wishlistId)
          (Viewers (Z.of_nat (size (members a' ("wishlist:" ++ wishlistId)))))]) /\
  (forall sid,
     let a' := fst (Presence.disconnect sid a) in
     (forall room, room ∈ socketRooms sid a ->
        members a' room = members a room ∖ {[sid]}) /\
     (forall p, p ∈ snd (Presence.disconnect sid a) <->
        exists wishlistId,
          "wishlist:" ++ wishlistId ∈ socketRooms sid a /\
          p = to_emit a ("wishlist:" ++ wishlistId) ("viewers:" ++ wishlistId)
                (Viewers (Z.of_nat (size (members a' ("wishlist:" ++ wishlistId))))))) /\
  (forall s p count,
     p ∈ snd (presence_step s a) -> p_payload p = Viewers count -> (0 <= count)%Z) /\
  p_payload <$>
    snd (presence_run [Connect "A"; JoinWishlist "A" "w1";
                       Connect "B"; JoinWishlist "B" "w1";
                       Disconnect "A"] empty_adapter)
  = [Viewers 1; Viewers 2; Viewers 1].
Proof.
  intros Hreach. pose proof (reachable_sound a Hreach) as Ha.
  repeat apply conj.
  - intros sid wishlistId. apply join_wishlist_packet.
  - intros sid wishlistId. apply leave_wishlist_packet.
  - intros sid a'. unfold a', Presence.disconnect. cbn [fst snd]. split.
    + intros room Hroom. by rewrite members_delAll, decide_True.
    + intros p. by apply disconnecting_packets.
  - intros s p count Hp Hcount. destruct s as [sid|sid wid|sid wid|sid]; simpl in Hp.
    + by apply elem_of_nil in Hp.
    + apply list_elem_of_singleton in Hp. subst p. simpl in Hcount.
      injection Hcount as <-. unfold Presence.size_or. case_match; lia.
    + apply list_elem_of_singleton in Hp. subst p. simpl in Hcount.
      injection Hcount as <-. unfold Presence.size_or. case_match; lia.
    + apply disconnecting_packets in Hp as (wid & _ & ->); [|done].
      simpl in Hcount. injection Hcount as <-. lia.
  - vm_compute. reflexivity.
Qed.

Lemma C9_presence_counts_witness :
  reachable Scenario.two_viewers /\
  forall p, p ∈ snd (Presence.disconnect "A" Scenario.two_viewers) <->
    exists wishlistId,
      "wishlist:" ++ wishlistId ∈ socketRooms "A" Scenario.two_viewers /\
      p = to_emit Scenario.two_viewers ("wishlist:" ++ wishlistId)
            ("viewers:" ++ wishlistId)
            (Viewers (Z.of_nat (size (members
               (fst (Presence.disconnect "A" Scenario.two_viewers))
               ("wishlist:" ++ wishlistId))))).
Proof.
  assert (H : reachable Scenario.two_viewers).
  { apply (reachable_step (JoinWishlist "B" "w2")).
    apply (reachable_step (Connect "B")).
    apply (reachable_step (JoinWishlist "A" "w1")).
    apply (reachable_step (Connect "A")).
    apply reachable_start. }
  split; [exact H|].
  apply (proj2 (proj1 (proj2 (proj2 (C9_presence_counts Scenario.two_viewers H))) "A")).
Defined.

(** ** The funding scenario, end to end *)

(** The item costs 50.  Sam contributes 30: collected 30, still open.  Lee
    contributes 20: collected 50, reserved by "Group contribution".  Kim's
    reserve is then refused, and so is a further contribution. *)
Example scenario_sam_lee_kim :
  let body who a := {| ContributionRoutes.b_itemId := "i1";
                       ContributionRoutes.b_amount := a;
                       ContributionRoutes.b_message := None;
                       ContributionRoutes.b_nickname := Some who |} in
  let post who a := ContributionRoutes.post_contribution (fun _ => true) None (body who a)
                      Scenario.two_viewers in
  let w1 := snd (post "Sam" 30%Z Scenario.world0) in
  let w2 := snd (post "Lee" 20%Z w1) in
  (collectedAmount <$> items (db w1) !! "i1" = Some 30%Z /\
   isReserved <$> items (db w1) !! "i1" = Some false) /\
  (collectedAmount <$> items (db w2) !! "i1" = Some 50%Z /\
   isReserved <$> items (db w2) !! "i1" = Some true /\
   reservedBy <$> items (db w2) !! "i1" = Some (Some "Group contribution")) /\
  length (contributions (db w2)) = 2%nat /\
  fst (ItemRoutes.post_reserve "i1" (Scenario.guest "Kim") Scenario.two_viewers w2)
  = {| status := 400; body := ErrorJson "Item is already reserved" |} /\
  fst (post "Kim" 5%Z w2)
  = {| status := 400; body := ErrorJson "Item is already reserved/fully funded" |}.
Proof. vm_compute. repeat split. Qed.

(** * Further properties of the handlers *)

Import Runs.

(** ** Reserve and unreserve compose *)

Lemma post_reserve_accepted (itemId : string) (req : Request) (io : Adapter) (w : World)
    (item : Item) (wl : Wishlist) (label : string) :
  items (db w) !! itemId = Some item ->
  wishlists (db w) !! wishlistId item = Some wl ->
  user_id req <> Some (ownerId wl) ->
  label_of req = Some label ->
  Js.truthy label = true ->
  isReserved item = false ->
  ItemRoutes.post_reserve itemId req io w
  = ({| status := 200; body := MessageJson "Item reserved!" |},
     {| db := set_items (db w) (<[itemId := reserved_row item label]> (items (db w)));
        outbox := (outbox w
                   ++ [emit io (ItemService.channel (wishlistId item))
                            (ITEM_RESERVED (wishlistId item) itemId true label)])%list |}).
Proof.
  intros Hitem Hwl Hown Hlabel Htruthy Hres.
  unfold ItemRoutes.post_reserve. unfold label_of in Hlabel. rewrite Hlabel, Htruthy.
  simpl. by rewrite (reserveItem_accepted _ _ _ _ _ item wl).
Qed.




(** ** One reservation at a time *)

Lemma post_reserve_ok_inv (itemId : string) (req : Request) (io : Adapter) (w : World) :
  status (fst (ItemRoutes.post_reserve itemId req io w)) = 200%Z ->
  exists item label,
    items (db w) !! itemId = Some item /\ isReserved item = false /\
    label_of req = Some label /\ Js.truthy label = true /\
    db (snd (ItemRoutes.post_reserve itemId req io w))
    = set_items (db w) (<[itemId := reserved_row item label]> (items (db w))).
Proof.
  unfold ItemRoutes.post_reserve, label_of.
  destruct (Js.or_else (user_email req) (nickname req)) as [label|]; [|done].
  destruct (Js.truthy label) eqn:Htruthy; simpl; [|done].
  destruct (items (db w) !! itemId) as [item|] eqn:Hitem.
  2: { by rewrite reserveItem_item_missing. }
  destruct (wishlists (db w) !! wishlistId item) as [wl|] eqn:Hwl.
  2: { by rewrite (reserveItem_wishlist_missing _ _ _ _ _ item). }
  destruct (decide (user_id req = Some (ownerId wl))) as [Hown|Hown].
  { by rewrite Hown, (reserveItem_owner _ _ _ _ item wl). }
  destruct (isReserved item) eqn:Hres.
  { by rewrite (reserveItem_already_reserved _ _ _ _ _ item wl). }
  rewrite (reserveItem_accepted _ _ _ _ _ item wl) by done. simpl.
  intros _. by exists item, label.
Qed.

Lemma reserve_all_closed (itemId : string) (io : Adapter) (reqs : list Request)
    (w : World) :
  open_in (db w) itemId = false ->
  Forall (fun resp => succeeded resp = false) (fst (reserve_all itemId io reqs w)) /\
  snd (reserve_all itemId io reqs w) = w.
Proof.
  intros Hclosed. induction reqs as [|req rest [IHr IHw]]; simpl; [done|].
  assert (Hfail : status (fst (ItemRoutes.post_reserve itemId req io w)) <> 200%Z).
  { intros Hok. apply post_reserve_ok_inv in Hok as (item & label & Hitem & Hres & _).
    unfold open_in in Hclosed. by rewrite Hitem, Hres in Hclosed. }
  pose proof (post_reserve_failure_unchanged _ _ _ _ Hfail) as Hsame.
  destruct (ItemRoutes.post_reserve itemId req io w) as [resp w'].
  simpl in *. subst w'.
  destruct (reserve_all itemId io rest w) as [resps w'']. simpl in *.
  split; [|done]. constructor; [|done].
  unfold succeeded. by apply Z.eqb_neq.
Qed.

(** X2. However many reserve requests arrive for an item, one after the
    other, at most one is answered 200.  When the item is already reserved
    (or does not exist) none is, and nothing changes.  When it is open and
    the first request is from somebody other than the authenticated owner
    with a non-empty label, that request wins: every later one is refused
    and the item stays reserved under the first label. *)
Theorem reserve_all_at_most_one
    (itemId : string) (io : Adapter) (reqs : list Request) (w : World) :
  (length (List.filter succeeded (fst (reserve_all itemId io reqs w))) <= 1)%nat /\
  (open_in (db w) itemId = false ->
     Forall (fun resp => succeeded resp = false) (fst (reserve_all itemId io reqs w)) /\
     snd (reserve_all itemId io reqs w) = w) /\
  (forall req rest item wl label,
     reqs = req :: rest ->
     items (db w) !! itemId = Some item ->
     wishlists (db w) !! wishlistId item = Some wl ->
     user_id req <> Some (ownerId wl) ->
     label_of req = Some label -> Js.truthy label = true ->
     isReserved item = false ->
     exists resps,
       fst (reserve_all itemId io reqs w)
       = {| status := 200; body := MessageJson "Item reserved!" |} :: resps /\
       Forall (fun resp => succeeded resp = false) resps /\
       items (db (snd (reserve_all itemId io reqs w))) !! itemId
       = Some (reserved_row item label)).
Proof.
  split; [|split].
  - revert w. induction reqs as [|req rest IH]; intros w; simpl; [lia|].
    destruct (ItemRoutes.post_reserve itemId req io w) as [resp w'] eqn:Hpost.
    destruct (reserve_all itemId io rest w') as [resps w''] eqn:Hrest. simpl.
    destruct (succeeded resp) eqn:Hok; simpl.
    + assert (Hclosed : open_in (db w') itemId = false).
      { unfold succeeded in Hok. apply Z.eqb_eq in Hok.
        pose proof (post_reserve_ok_inv itemId req io w) as Hinv.
        rewrite Hpost in Hinv. simpl in Hinv.
        destruct (Hinv Hok) as (item & label & _ & _ & _ & _ & Hdb).
        unfold open_in. rewrite Hdb. simpl. by rewrite lookup_insert_eq. }
      pose proof (reserve_all_closed itemId io rest w' Hclosed) as [Hall _].
      rewrite Hrest in Hall. simpl in Hall.
      assert (List.filter succeeded resps = []) as ->; [|simpl; lia].
      clear -Hall. induction Hall as [|r l Hr _ IHl]; simpl; [done|]. by rewrite Hr.
    + specialize (IH w'). by rewrite Hrest in IH.
  - apply reserve_all_closed.
  - intros req rest item wl label -> Hitem Hwl Hown Hlabel Htruthy Hres. simpl.
    rewrite (post_reserve_accepted _ _ _ _ item wl label) by done.
    match goal with |- context [reserve_all itemId io rest ?w1] =>
      pose proof (reserve_all_closed itemId io rest w1) as Hclosed end.
    destruct Hclosed as [Hall Hsame].
    { unfold open_in. simpl. by rewrite lookup_insert_eq. }
    match goal with |- context [reserve_all itemId io rest ?w1] =>
      destruct (reserve_all itemId io rest w1) as [resps w''] end.
    simpl in *. subst w''. exists resps. split; [done|]. split; [done|].
    simpl. apply lookup_insert_eq.
Qed.

Lemma reserve_all_at_most_one_witness :
  let reqs := [Scenario.guest "Sam"; Scenario.guest "Kim"; Scenario.guest "Lee"] in
  exists resps,
    fst (reserve_all "i1" Scenario.two_viewers reqs Scenario.world0)
    = {| status := 200; body := MessageJson "Item reserved!" |} :: resps /\
    Forall (fun resp => succeeded resp = false) resps /\
    items (db (snd (reserve_all "i1" Scenario.two_viewers reqs Scenario.world0))) !! "i1"
    = Some (reserved_row Scenario.bike "Sam").
Proof.
  intros reqs.
  apply (proj2 (proj2 (reserve_all_at_most_one "i1" Scenario.two_viewers reqs
                         Scenario.world0))
           (Scenario.guest "Sam") [Scenario.guest "Kim"; Scenario.guest "Lee"]
           Scenario.bike Scenario.alices_list "Sam");
    first [reflexivity | discriminate].
Defined.

(** ** Creating, deleting and hyping items *)

Lemma createItem_refused (newId userId : string) (data : ItemService.CreateItemDTO)
    (io : option Adapter) (w : World) :
  (forall wl, wishlists (db w) !! ItemService.dto_wishlistId data = Some wl ->
              ownerId wl <> userId) ->
  ItemService.createItem newId userId data io w
  = (Throw "Not authorized to add to this wishlist", w).
Proof.
  intros Hnot. unfold ItemService.createItem, ItemService.wishlist_findUnique.
  unfold_handlers.
  destruct (wishlists (db w) !! ItemService.dto_wishlistId data) as [wl|]; [|done].
  specialize (Hnot wl eq_refl). apply String.eqb_neq in Hnot. by rewrite Hnot.
Qed.

Lemma createItem_accepted (newId userId : string) (data : ItemService.CreateItemDTO)
    (io : option Adapter) (w : World) (wl : Wishlist) :
  wishlists (db w) !! ItemService.dto_wishlistId data = Some wl ->
  ownerId wl = userId ->
  items (db w) !! newId = None ->
  ItemService.createItem newId userId data io w
  = (Ok (created_row data),
     {| db := set_items (db w) (<[newId := created_row data]> (items (db w)));
        outbox :=
          match io with
          | Some a =>
              (outbox w
               ++ [emit a (ItemService.channel (ItemService.dto_wishlistId data))
                        (ITEM_ADDED (ItemService.dto_wishlistId data) newId
                                    (created_row data))])%list
          | None => outbox w
          end |}).
Proof.
  intros Hwl Hown Hfresh.
  unfold ItemService.createItem, ItemService.wishlist_findUnique,
    ItemService.item_create.
  unfold_handlers. rewrite Hwl. rewrite (proj2 (String.eqb_eq _ _) Hown). simpl.
  unfold create_item. rewrite Hfresh. by destruct io.
Qed.

(** X3. Only the owner of a wishlist adds items to it: when [createItem]
    returns, the wishlist exists and belongs to the caller; whenever it
    throws, whatever the reason (no such wishlist, somebody else's wishlist,
    id already taken), nothing is stored and nothing is emitted. *)
Theorem createItem_only_owner
    (newId userId : string) (data : ItemService.CreateItemDTO)
    (io : option Adapter) (w : World) :
  match ItemService.createItem newId userId data io w with
  | (Ok item, w') =>
      (exists wl, wishlists (db w) !! ItemService.dto_wishlistId data = Some wl /\
                  ownerId wl = userId) /\
      items (db w) !! newId = None /\
      items (db w') !! newId = Some item
  | (Throw _, w') => w' = w
  end.
Proof.
  destruct (wishlists (db w) !! ItemService.dto_wishlistId data) as [wl|] eqn:Hwl.
  2: { rewrite createItem_refused; [done|]. intros wl. by rewrite Hwl. }
  destruct (decide (ownerId wl = userId)) as [Hown|Hown].
  2: { rewrite createItem_refused; [done|]. intros wl'. rewrite Hwl. by intros [= <-]. }
  destruct (items (db w) !! newId) as [old|] eqn:Hfresh.
  - unfold ItemService.createItem, ItemService.wishlist_findUnique,
      ItemService.item_create.
    unfold_handlers. rewrite Hwl. rewrite (proj2 (String.eqb_eq _ _) Hown). simpl.
    unfold create_item. by rewrite Hfresh.
  - rewrite (createItem_accepted _ _ _ _ _ wl) by done.
    split; [by exists wl|]. split; [done|]. simpl. apply lookup_insert_eq.
Qed.



Lemma deleteItem_refused (itemId userId : string) (io : option Adapter) (w : World) :
  (forall item, items (db w) !! itemId = Some item ->
     exists wl, wishlists (db w) !! wishlistId item = Some wl /\ ownerId wl <> userId) ->
  ItemService.deleteItem itemId userId io w
  = (Throw "Not authorized to delete this item", w).
Proof.
  intros Hnot. unfold ItemService.deleteItem. unfold_handlers.
  unfold findUnique_include_wishlist.
  destruct (items (db w) !! itemId) as [item|]; [|done].
  destruct (Hnot item eq_refl) as (wl & Hwl & Hown). rewrite Hwl. simpl.
  apply String.eqb_neq in Hown. by rewrite Hown.
Qed.

Lemma deleteItem_accepted (itemId userId : string) (io : option Adapter) (w : World)
    (item : Item) (wl : Wishlist) :
  items (db w) !! itemId = Some item ->
  wishlists (db w) !! wishlistId item = Some wl ->
  ownerId wl = userId ->
  ItemService.deleteItem itemId userId io w
  = (Ok tt,
     {| db := delete_item itemId (db w);
        outbox :=
          match io with
          | Some a =>
              (outbox w
               ++ [emit a (ItemService.channel (wishlistId item))
                        (ITEM_DELETED (wishlistId item) itemId)])%list
          | None => outbox w
          end |}).
Proof.
  intros Hitem Hwl Hown. unfold ItemService.deleteItem, ItemService.item_delete.
  unfold_handlers. unfold findUnique_include_wishlist. rewrite Hitem, Hwl. simpl.
  rewrite (proj2 (String.eqb_eq _ _) Hown). simpl. by destruct io.
Qed.

Lemma contributions_of_delete_other (itemId other : string) (st : Store) :
  other <> itemId ->
  WishlistRoutes.contributions_of other (delete_item itemId st)
  = WishlistRoutes.contributions_of other st.
Proof.
  intros Hne. unfold WishlistRoutes.contributions_of, delete_item; simpl. f_equal.
  induction (contributions st) as [|c cs IH]; simpl; [done|].
  destruct (String.eqb_spec (c_itemId c) itemId) as [Heq|Hneq]; simpl.
  - rewrite IH. destruct (String.eqb_spec (c_itemId c) other) as [Heq'|]; [|done].
    congruence.
  - by rewrite IH.
Qed.

Lemma contributions_of_delete_same (itemId : string) (st : Store) :
  WishlistRoutes.contributions_of itemId (delete_item itemId st) = [].
Proof.
  unfold WishlistRoutes.contributions_of, delete_item; simpl.
  induction (contributions st) as [|c cs IH]; simpl; [done|].
  destruct (String.eqb_spec (c_itemId c) itemId) as [Heq|Hneq]; simpl; [done|].
  rewrite (proj2 (String.eqb_neq _ _) Hneq). done.
Qed.

(** X5. Deleting an item.  A caller who does not own the item's wishlist
    gets "Not authorized to delete this item", and so does a caller naming
    an item that does not exist; either way nothing changes.  When the owner
    deletes, the item and its contributions are gone, every other item and
    its contributions stay as they were, ITEM_DELETED goes to every
    connected socket, and a later reserve of that id is answered 404. *)
Theorem deleteItem_only_owner_and_cascades
    (itemId userId : string) (io : Adapter) (w : World) :
  (items (db w) !! itemId = None ->
     ItemService.deleteItem itemId userId (Some io) w
     = (Throw "Not authorized to delete this item", w)) /\
  (forall item wl,
     items (db w) !! itemId = Some item ->
     wishlists (db w) !! wishlistId item = Some wl ->
     ownerId wl <> userId ->
     ItemService.deleteItem itemId userId (Some io) w
     = (Throw "Not authorized to delete this item", w)) /\
  (forall item wl,
     items (db w) !! itemId = Some item ->
     wishlists (db w) !! wishlistId item = Some wl ->
     ownerId wl = userId ->
     let r := ItemService.deleteItem itemId userId (Some io) w in
     fst r = Ok tt /\
     items (db (snd r)) !! itemId = None /\
     WishlistRoutes.contributions_of itemId (db (snd r)) = [] /\
     (forall other, other <> itemId ->
        items (db (snd r)) !! other = items (db w) !! other /\
        WishlistRoutes.contributions_of other (db (snd r))
        = WishlistRoutes.contributions_of other (db w)) /\
     outbox (snd r)
     = (outbox w ++ [emit io (ItemService.channel (wishlistId item))
                          (ITEM_DELETED (wishlistId item) itemId)])%list /\
     forall req io', status (fst (ItemRoutes.post_reserve itemId req io' (snd r)))
                     <> 200%Z).
Proof.
  repeat apply conj.
  - intros Hmissing. apply deleteItem_refused. intros item. by rewrite Hmissing.
  - intros item wl Hitem Hwl Hown. apply deleteItem_refused.
    intros item'. rewrite Hitem. intros [= <-]. by exists wl.
  - intros item wl Hitem Hwl Hown r. unfold r.
    rewrite (deleteItem_accepted _ _ _ _ item wl) by done. cbn [fst snd db outbox].
    split; [done|]. split; [apply lookup_delete_eq|].
    split; [apply contributions_of_delete_same|]. split.
    { intros other Hne. split; [simpl; by rewrite lookup_delete_ne|].
      by apply contributions_of_delete_other. }
    split; [done|]. intros req io' Hok.
    apply post_reserve_ok_inv in Hok as (item' & _ & Hfound & _).
    simpl in Hfound. by rewrite lookup_delete_eq in Hfound.
Qed.

Lemma deleteItem_only_owner_and_cascades_witness :
  let r := ItemService.deleteItem "i1" "alice" (Some Scenario.two_viewers)
             Scenario.world_sam in
  fst r = Ok tt /\ items (db (snd r)) !! "i1" = None /\
  ItemService.deleteItem "i1" "mallory" (Some Scenario.two_viewers) Scenario.world_sam
  = (Throw "Not authorized to delete this item", Scenario.world_sam).
Proof.
  intros r.
  pose proof (deleteItem_only_owner_and_cascades "i1" "alice" Scenario.two_viewers
                Scenario.world_sam) as (_ & _ & Hok).
  destruct (Hok Scenario.bike_sam Scenario.alices_list eq_refl eq_refl eq_refl)
    as (H1 & H2 & _).
  pose proof (deleteItem_only_owner_and_cascades "i1" "mallory" Scenario.two_viewers
                Scenario.world_sam) as (_ & Hno & _).
  split; [exact H1|]. split; [exact H2|].
  apply (Hno Scenario.bike_sam Scenario.alices_list eq_refl eq_refl). discriminate.
Defined.

Lemma post_hype_found (itemId : string) (io : Adapter) (w : World) (item : Item) :
  items (db w) !! itemId = Some item ->
  ItemRoutes.post_hype itemId io w
  = ({| status := 200; body := HypeJson (hypeCount item + 1) |},
     {| db := set_items (db w) (<[itemId := hyped_row item 1]> (items (db w)));
        outbox := (outbox w
                   ++ [to_emit io (ItemService.channel (wishlistId item)) "hype"
                               (Hype itemId (hypeCount item + 1))])%list |}).
Proof.
  intros Hitem. unfold ItemRoutes.post_hype, ItemService.hypeItem.
  unfold bind at 1. rewrite (item_update_found _ _ _ item) by done.
  assert (apply_data ItemService.hype_data item = hyped_row item 1) as ->.
  { unfold apply_data, hyped_row; simpl. f_equal; lia. }
  by unfold_handlers.
Qed.

Lemma post_hype_missing (itemId : string) (io : Adapter) (w : World) :
  items (db w) !! itemId = None ->
  ItemRoutes.post_hype itemId io w
  = ({| status := 500; body := ErrorJson "Failed to hype item" |}, w).
Proof.
  intros Hitem. unfold ItemRoutes.post_hype, ItemService.hypeItem.
  unfold_handlers. unfold update. by rewrite Hitem.
Qed.




(** ** The ledger and the collected amounts *)

Lemma post_unreserve_effect (itemId : string) (req : Request) (io : Adapter) (w : World) :
  effect None (db w) (db (snd (ItemRoutes.post_unreserve itemId req io w))).
Proof.
  destruct (decide (status (fst (ItemRoutes.post_unreserve itemId req io w)) = 200%Z))
    as [Hok|Hfail].
  2: { apply effect_none. by rewrite post_unreserve_failure_unchanged. }
  revert Hok. unfold ItemRoutes.post_unreserve.
  destruct (items (db w) !! itemId) as [item|] eqn:Hitem.
  2: { by rewrite unreserveItem_item_missing. }
  destruct (Js.falsy (Js.or_else (user_email req) (nickname req))) eqn:Hfalsy.
  { by rewrite (unreserveItem_no_identity _ _ _ _ item). }
  destruct (Js.or_else (user_email req) (nickname req)) as [who|]; [|done].
  simpl in Hfalsy. apply negb_false_iff in Hfalsy.
  destruct (isReserved item && bool_decide (reservedBy item = Some who)) eqn:Hholds.
  - rewrite (unreserveItem_accepted _ _ _ _ item) by done. simpl. intros _.
    by apply (effect_row _ _ _ itemId item (unreserved_row item)).
  - by rewrite (unreserveItem_not_holder _ _ _ _ item).
Qed.

Lemma post_reserve_effect (itemId : string) (req : Request) (io : Adapter) (w : World) :
  effect None (db w) (db (snd (ItemRoutes.post_reserve itemId req io w))).
Proof.
  destruct (decide (status (fst (ItemRoutes.post_reserve itemId req io w)) = 200%Z))
    as [Hok|Hfail].
  2: { apply effect_none. by rewrite post_reserve_failure_unchanged. }
  apply post_reserve_ok_inv in Hok as (item & label & Hitem & _ & _ & _ & Hdb).
  by apply (effect_row _ _ _ itemId item (reserved_row item label)).
Qed.

Lemma post_contribution_effect (is_uuid : string -> bool) (u : option UserPayload)
    (data : ContributionRoutes.ContributionBody) (io : Adapter) (w : World) :
  effect None (db w) (db (snd (ContributionRoutes.post_contribution is_uuid u data io w))).
Proof.
  destruct (decide (status (fst (ContributionRoutes.post_contribution is_uuid u data io w))
                    = 200%Z)) as [Hok|Hfail].
  2: { apply effect_none. by rewrite post_contribution_failure_unchanged. }
  revert Hok.
  unfold ContributionRoutes.post_contribution, ContributionRoutes.schema_parse.
  destruct (is_uuid (ContributionRoutes.b_itemId data)); simpl; [|done].
  destruct (Z.ltb_spec 0 (ContributionRoutes.b_amount data)) as [Hpos|]; simpl; [|done].
  unfold ret.
  destruct (Js.or_else (email <$> u) (ContributionRoutes.b_nickname data)) as [who|];
    [|done].
  destruct (Js.truthy who); simpl; [|done].
  destruct (items (db w) !! ContributionRoutes.b_itemId data) as [item|] eqn:Hitem.
  2: { by rewrite contribute_item_missing. }
  destruct (wishlists (db w) !! wishlistId item) as [wl|] eqn:Hwl.
  2: { by rewrite (contribute_wishlist_missing _ _ _ _ item). }
  destruct (decide (id <$> u = Some (ownerId wl))) as [Hown|Hown].
  { by rewrite Hown, (contribute_owner _ _ _ item wl). }
  destruct (isReserved item) eqn:Hres.
  { by rewrite (contribute_reserved _ _ _ _ item wl). }
  rewrite (contribute_accepted _ _ _ _ item wl) by done. simpl. intros _.
  by apply (effect_contribute _ _ _ (ContributionRoutes.b_itemId data) item
              (contributed_row item (ContributionRoutes.b_amount data))
              (contribution_record (id <$> u) who data)).
Qed.

Lemma createItem_effect (newId userId : string) (data : ItemService.CreateItemDTO)
    (io : option Adapter) (w : World) :
  effect None (db w) (db (snd (ItemService.createItem newId userId data io w))).
Proof.
  destruct (wishlists (db w) !! ItemService.dto_wishlistId data) as [wl|] eqn:Hwl.
  2: { rewrite createItem_refused; [by apply effect_none|]. intros wl. by rewrite Hwl. }
  destruct (decide (ownerId wl = userId)) as [Hown|Hown].
  2: { rewrite createItem_refused; [by apply effect_none|].
       intros wl'. rewrite Hwl. by intros [= <-]. }
  destruct (items (db w) !! newId) as [old|] eqn:Hfresh.
  - apply effect_none.
    unfold ItemService.createItem, ItemService.wishlist_findUnique,
      ItemService.item_create.
    unfold_handlers. rewrite Hwl. rewrite (proj2 (String.eqb_eq _ _) Hown). simpl.
    unfold create_item. by rewrite Hfresh.
  - rewrite (createItem_accepted _ _ _ _ _ wl) by done. simpl.
    by apply (effect_create _ _ _ newId (created_row data)).
Qed.

Lemma deleteItem_effect (itemId userId : string) (io : option Adapter) (w : World) :
  effect (Some itemId) (db w) (db (snd (ItemService.deleteItem itemId userId io w))).
Proof.
  destruct (items (db w) !! itemId) as [item|] eqn:Hitem.
  2: { rewrite deleteItem_refused; [by apply effect_none|].
       intros item. by rewrite Hitem. }
  destruct (wishlists (db w) !! wishlistId item) as [wl|] eqn:Hwl.
  2: { apply effect_none. unfold ItemService.deleteItem. unfold_handlers.
       unfold findUnique_include_wishlist. by rewrite Hitem, Hwl. }
  destruct (decide (ownerId wl = userId)) as [Hown|Hown].
  - rewrite (deleteItem_accepted _ _ _ _ item wl) by done.
    by apply (effect_delete _ _ _ itemId).
  - rewrite deleteItem_refused; [by apply effect_none|].
    intros item'. rewrite Hitem. intros [= <-]. by exists wl.
Qed.

Lemma post_hype_effect (itemId : string) (io : Adapter) (w : World) :
  effect None (db w) (db (snd (ItemRoutes.post_hype itemId io w))).
Proof.
  destruct (items (db w) !! itemId) as [item|] eqn:Hitem.
  - rewrite (post_hype_found _ _ _ item) by done.
    by apply (effect_row _ _ _ itemId item (hyped_row item 1)).
  - rewrite post_hype_missing by done. by apply effect_none.
Qed.

Lemma step_effect (is_uuid : string -> bool) (io : Adapter) (op : Op) (w : World) :
  effect (delete_target op) (db w) (db (step is_uuid io op w)).
Proof.
  destruct op; simpl.
  - apply createItem_effect.
  - apply post_reserve_effect.
  - apply post_unreserve_effect.
  - apply post_contribution_effect.
  - apply post_hype_effect.
  - apply deleteItem_effect.
Qed.

Lemma contributed_app (itemId : string) (cs : list Contribution) (c : Contribution) :
  contributed itemId (cs ++ [c])
  = (contributed itemId cs + if String.eqb (c_itemId c) itemId then amount c else 0)%Z.
Proof.
  induction cs as [|c' cs IH]; simpl; [lia|]. rewrite IH. lia.
Qed.

Lemma contributed_delete (itemId k : string) (cs : list Contribution) :
  contributed itemId (List.filter (fun c => negb (String.eqb (c_itemId c) k)) cs)
  = if String.eqb k itemId then 0%Z else contributed itemId cs.
Proof.
  induction cs as [|c cs IH]; simpl; [by destruct (String.eqb k itemId)|].
  destruct (String.eqb_spec (c_itemId c) k) as [Hck|Hck]; simpl; rewrite IH.
  - destruct (String.eqb_spec k itemId) as [Hk|Hk]; [done|].
    rewrite (proj2 (String.eqb_neq _ _)) by congruence. lia.
  - destruct (String.eqb_spec k itemId) as [Hk|Hk]; [|done].
    rewrite (proj2 (String.eqb_neq _ _)) by congruence. lia.
Qed.

Lemma effect_balanced (target : option string) (st st' : Store) :
  effect target st st' -> balanced st -> balanced st'.
Proof.
  intros Heff Hst itemId. specialize (Hst itemId).
  destruct Heff as [->|k i i' Hi Hc ->|k i' Hi Hc ->|k i i' c Hi Hk Hpos Hc ->|k _ ->];
    simpl.
  - done.
  - destruct (decide (k = itemId)) as [->|Hne].
    + rewrite lookup_insert_eq. rewrite Hi in Hst. congruence.
    + by rewrite lookup_insert_ne.
  - destruct (decide (k = itemId)) as [->|Hne].
    + rewrite lookup_insert_eq. rewrite Hi in Hst. congruence.
    + by rewrite lookup_insert_ne.
  - rewrite contributed_app. destruct (decide (k = itemId)) as [->|Hne].
    + rewrite lookup_insert_eq. rewrite Hi in Hst.
      rewrite (proj2 (String.eqb_eq _ _) Hk). lia.
    + rewrite lookup_insert_ne by done.
      rewrite (proj2 (String.eqb_neq _ _)) by congruence. lia.
  - rewrite contributed_delete. destruct (String.eqb_spec k itemId) as [->|Hne].
    + by rewrite lookup_delete_eq.
    + by rewrite lookup_delete_ne.
Qed.

(** X7. The ledger and the running totals agree, always: starting from a
    store without items, after any sequence of create, reserve, unreserve,
    contribute, hype and delete requests, successful or not, the
    [collectedAmount] of every item is the sum of the amounts of the
    Contribution rows that name it, and the rows that name an id without an
    item add up to zero.  No contribution is lost or counted twice. *)
Theorem ledger_balanced (is_uuid : string -> bool) :
  (forall io op w, balanced (db w) -> balanced (db (step is_uuid io op w))) /\
  (forall ops w, balanced (db w) -> balanced (db (steps is_uuid ops w))) /\
  (forall ops wls out itemId,
     let st := db (steps is_uuid ops
                     {| db := {| items := ∅; wishlists := wls; contributions := [] |};
                        outbox := out |}) in
     contributed itemId (contributions st)
     = match items st !! itemId with
       | Some i => collectedAmount i
       | None => 0%Z
       end).
Proof.
  assert (Hstep : forall io op w, balanced (db w) -> balanced (db (step is_uuid io op w))).
  { intros io op w. apply (effect_balanced (delete_target op)), step_effect. }
  assert (Hsteps : forall ops w, balanced (db w) -> balanced (db (steps is_uuid ops w))).
  { induction ops as [|[io op] rest IH]; intros w Hw; simpl; [done|].
    by apply IH, Hstep. }
  repeat apply conj; [done|done|].
  intros ops wls out itemId st. apply Hsteps. intros k. simpl. by rewrite lookup_empty.
Qed.

Lemma ledger_balanced_witness :
  let body who a := {| ContributionRoutes.b_itemId := "i1";
                       ContributionRoutes.b_amount := a;
                       ContributionRoutes.b_message := None;
                       ContributionRoutes.b_nickname := Some who |} in
  let ops := [(Scenario.two_viewers, Contribute None (body "Sam" 30%Z));
              (Scenario.two_viewers, HypeItem "i1");
              (Scenario.two_viewers, Contribute None (body "Lee" 5%Z))] in
  balanced (db Scenario.world0) /\
  balanced (db (steps (fun _ => true) ops Scenario.world0)) /\
  collectedAmount <$> items (db (steps (fun _ => true) ops Scenario.world0)) !! "i1"
  = Some 35%Z.
Proof.
  intros body ops.
  assert (H0 : balanced (db Scenario.world0)).
  { intros k. simpl. destruct (decide (k = "i1")) as [->|Hne]; [done|].
    by rewrite lookup_singleton_ne. }
  split; [exact H0|]. split; [|reflexivity].
  apply (proj1 (proj2 (ledger_balanced (fun _ => true))) ops Scenario.world0 H0).
Defined.

Lemma effect_keeps (target : option string) (st st' : Store) (itemId : string) (i : Item) :
  effect target st st' ->
  items st !! itemId = Some i ->
  match items st' !! itemId with
  | Some i' => (collectedAmount i <= collectedAmount i')%Z
  | None => target = Some itemId
  end.
Proof.
  intros Heff Hi.
  destruct Heff as [->|k j j' Hj Hc ->|k j' Hj Hc ->|k j j' c Hj Hk Hpos Hc ->|k Ht ->];
    simpl.
  - rewrite Hi. lia.
  - destruct (decide (k = itemId)) as [->|Hne].
    + rewrite lookup_insert_eq. rewrite Hj in Hi. injection Hi as <-. lia.
    + rewrite lookup_insert_ne, Hi by done. lia.
  - destruct (decide (k = itemId)) as [->|Hne]; [congruence|].
    rewrite lookup_insert_ne, Hi by done. lia.
  - destruct (decide (k = itemId)) as [->|Hne].
    + rewrite lookup_insert_eq. rewrite Hj in Hi. injection Hi as <-. lia.
    + rewrite lookup_insert_ne, Hi by done. lia.
  - destruct (decide (k = itemId)) as [->|Hne].
    + by rewrite lookup_delete_eq.
    + rewrite lookup_delete_ne, Hi by done. lia.
Qed.

(** X8. [collectedAmount] never goes down.  Across any single request an
    item that is there before and after has at least the amount it had;
    and an item goes away only through a delete request naming it, so over
    any sequence of requests without such a delete the item is still there
    at the end with at least the amount it started with. *)
Theorem collected_never_decreases (is_uuid : string -> bool) :
  (forall io op w itemId i i',
     items (db w) !! itemId = Some i ->
     items (db (step is_uuid io op w)) !! itemId = Some i' ->
     (collectedAmount i <= collectedAmount i')%Z) /\
  (forall ops w itemId i,
     Forall (fun p => delete_target (snd p) <> Some itemId) ops ->
     items (db w) !! itemId = Some i ->
     exists i', items (db (steps is_uuid ops w)) !! itemId = Some i' /\
                (collectedAmount i <= collectedAmount i')%Z).
Proof.
  split.
  - intros io op w itemId i i' Hi Hi'.
    pose proof (effect_keeps _ _ _ itemId i (step_effect is_uuid io op w) Hi) as H.
    by rewrite Hi' in H.
  - induction ops as [|[io op] rest IH]; intros w itemId i Hall Hi; simpl.
    + exists i. split; [done|lia].
    + apply Forall_cons in Hall as [Hop Hrest]. simpl in Hop.
      pose proof (effect_keeps _ _ _ itemId i (step_effect is_uuid io op w) Hi) as H.
      destruct (items (db (step is_uuid io op w)) !! itemId) as [i1|] eqn:Hi1; [|done].
      destruct (IH _ itemId i1 Hrest Hi1) as (i' & Hi' & Hle).
      exists i'. split; [done|lia].
Qed.

Lemma collected_never_decreases_witness :
  let ops := [(Scenario.two_viewers, Reserve "i1" (Scenario.guest "Sam"));
              (Scenario.two_viewers, DeleteItem "i9" "alice")] in
  Forall (fun p => delete_target (snd p) <> Some "i1") ops /\
  items (db Scenario.world0) !! "i1" = Some Scenario.bike /\
  exists i', items (db (steps (fun _ => true) ops Scenario.world0)) !! "i1" = Some i' /\
             (collectedAmount Scenario.bike <= collectedAmount i')%Z.
Proof.
  intros ops.
  assert (Hall : Forall (fun p => delete_target (snd p) <> Some "i1") ops).
  { repeat constructor; simpl; discriminate. }
  split; [exact Hall|]. split; [reflexivity|].
  apply (proj2 (collected_never_decreases (fun _ => true)) ops Scenario.world0 "i1"
           Scenario.bike Hall eq_refl).
Defined.

(** ** When a contribution is accepted, and what is announced *)







(** ** What the owner can and cannot see *)








(** X12. Who gets a wishlist.  [GET /wishlists/:id] answers with the
    wishlist exactly when it exists and is public or the requester is its
    authenticated owner; in every other case the answer is the same 404
    "Wishlist not found", so a private wishlist cannot be told from one
    that does not exist.  The [isOwner] flag of a response is true exactly
    for the authenticated owner. *)
Theorem wishlist_visibility (wid : string) (req : Request) (st : Store) :
  match WishlistRoutes.get_wishlist wid req st with
  | inr j =>
      wishlists st !! wid = Some (WishlistRoutes.j_wishlist j) /\
      (isPublic (WishlistRoutes.j_wishlist j) = true \/
       user_id req = Some (ownerId (WishlistRoutes.j_wishlist j))) /\
      (WishlistRoutes.j_isOwner j = true <->
       user_id req = Some (ownerId (WishlistRoutes.j_wishlist j)))
  | inl e =>
      e = WishlistRoutes.not_found /\
      (wishlists st !! wid = None \/
       exists wl, wishlists st !! wid = Some wl /\ isPublic wl = false /\
                  user_id req <> Some (ownerId wl)) /\
      forall st', wishlists st' !! wid = None ->
                  WishlistRoutes.get_wishlist wid req st' = inl e
  end.
Proof.
  unfold WishlistRoutes.get_wishlist.
  destruct (wishlists st !! wid) as [wl|] eqn:Hwl.
  2: { split; [done|]. split; [by left|]. intros st' ->. done. }
  unfold Js.strict_eq.
  destruct (isPublic wl) eqn:Hpub; case_bool_decide as Hown; simpl.
  - split; [done|]. split; [by left|]. done.
  - split; [done|]. split; [by left|]. done.
  - split; [done|]. split; [by right|]. done.
  - split; [done|]. split; [right; by exists wl|]. intros st' ->. done.
Qed.

(** ** The adapter's two maps *)

Lemma rooms_addAll (id room room' : string) (a : Adapter) :
  rooms (addAll id room a) !! room'
  = if decide (room = room') then Some ({[id]} ∪ members a room) else rooms a !! room'.
Proof.
  unfold addAll, members; simpl. case_decide as Heq.
  - subst. by rewrite lookup_insert_eq.
  - by rewrite lookup_insert_ne.
Qed.

Lemma lookup__del_Some (room id room' : string) (rs : gmap string (gset string))
    (m : gset string) :
  (forall r m0, rs !! r = Some m0 -> m0 <> ∅) ->
  _del room id rs !! room' = Some m -> m <> ∅.
Proof.
  intros Hrs. unfold _del. destruct (rs !! room) as [m0|] eqn:Hm0; [|apply Hrs].
  case_decide as Hsize.
  - destruct (decide (room = room')) as [->|Hne].
    + by rewrite lookup_delete_eq.
    + rewrite lookup_delete_ne by done. apply Hrs.
  - destruct (decide (room = room')) as [->|Hne].
    + rewrite lookup_insert_eq. intros [= <-] Hempty.
      apply Hsize. rewrite Hempty. apply size_empty.
    + rewrite lookup_insert_ne by done. apply Hrs.
Qed.

Lemma foldr__del_Some (id : string) (l : list string) (rs : gmap string (gset string)) :
  (forall r m0, rs !! r = Some m0 -> m0 <> ∅) ->
  forall r m0, foldr (fun room acc => _del room id acc) rs l !! r = Some m0 -> m0 <> ∅.
Proof.
  intros Hrs. induction l as [|room l IH]; simpl; [done|].
  intros r m0. by apply lookup__del_Some.
Qed.

Lemma coherent_empty : coherent empty_adapter.
Proof.
  split.
  - intros sid room. unfold members, socketRooms; simpl. rewrite !lookup_empty.
    set_solver.
  - intros room m. simpl. by rewrite lookup_empty.
Qed.

Lemma coherent_addAll (id room : string) (a : Adapter) :
  coherent a -> coherent (addAll id room a).
Proof.
  intros [Hiff Hne]. split.
  - intros sid room'. rewrite socketRooms_addAll, members_addAll.
    pose proof (Hiff sid room'). pose proof (Hiff id room).
    pose proof (Hiff sid room). pose proof (Hiff id room').
    repeat case_decide; subst; set_solver.
  - intros room' m. rewrite rooms_addAll. case_decide; [|apply Hne].
    intros [= <-]. set_solver.
Qed.

Lemma coherent_del (id room : string) (a : Adapter) :
  coherent a -> coherent (del id room a).
Proof.
  intros [Hiff Hne]. split.
  - intros sid room'. rewrite socketRooms_del, members_del.
    pose proof (Hiff sid room'). pose proof (Hiff id room).
    pose proof (Hiff sid room). pose proof (Hiff id room').
    repeat case_decide; subst; set_solver.
  - intros room' m. unfold del; simpl. by apply lookup__del_Some.
Qed.

Lemma coherent_delAll (id : string) (a : Adapter) :
  coherent a -> coherent (delAll id a).
Proof.
  intros [Hiff Hne]. split.
  - intros sid room'. rewrite socketRooms_delAll, members_delAll.
    pose proof (Hiff sid room'). pose proof (Hiff id room').
    repeat case_decide; subst; set_solver.
  - intros room' m. unfold delAll.
    destruct (sids a !! id) as [rs|]; simpl; [|apply Hne].
    by apply foldr__del_Some.
Qed.

Lemma reachable_coherent (a : Adapter) : reachable a -> coherent a.
Proof.
  induction 1 as [|s a _ IH]; [apply coherent_empty|].
  destruct s; simpl.
  - by apply coherent_addAll.
  - by apply coherent_addAll.
  - by apply coherent_del.
  - by apply coherent_delAll.
Qed.

(** X13. In every state the server can reach, the adapter's two maps agree:
    a socket is a member of a room exactly when the room is among the
    socket's rooms; no room is kept with zero members; and a socket that is
    not connected is in no room. *)
Theorem adapter_maps_agree (a : Adapter) :
  reachable a ->
  (forall sid room, sid ∈ members a room <-> room ∈ socketRooms sid a) /\
  (forall room m, rooms a !! room = Some m -> m <> ∅) /\
  (forall sid room, sids a !! sid = None -> sid ∉ members a room).
Proof.
  intros Hreach.
  assert (Hco : coherent a).
  { induction Hreach as [|s a _ IH]; [apply coherent_empty|].
    destruct s; simpl;
      [apply coherent_addAll | apply coherent_addAll
      | apply coherent_del | apply coherent_delAll]; exact IH. }
  destruct Hco as [Hiff Hne]. split; [exact Hiff|]. split; [exact Hne|].
  intros sid room Hnone Hin. apply Hiff in Hin.
  unfold socketRooms in Hin. rewrite Hnone in Hin. set_solver.
Qed.

Lemma adapter_maps_agree_witness :
  reachable Scenario.two_viewers /\
  forall sid room, sid ∈ members Scenario.two_viewers room
                   <-> room ∈ socketRooms sid Scenario.two_viewers.
Proof.
  assert (H : reachable Scenario.two_viewers).
  { apply (reachable_step (JoinWishlist "B" "w2")).
    apply (reachable_step (Connect "B")).
    apply (reachable_step (JoinWishlist "A" "w1")).
    apply (reachable_step (Connect "A")).
    apply reachable_start. }
  split; [exact H|]. apply (proj1 (adapter_maps_agree Scenario.two_viewers H)).
Defined.

Lemma adapter_eq (a b : Adapter) : rooms a = rooms b -> sids a = sids b -> a = b.
Proof. destruct a, b; simpl. by intros -> ->. Qed.

(** X14. Joining and leaving.  Joining a room a second time changes
    nothing and announces the same count again, so repeated joins do not
    inflate the count.  For a connected socket that is not in the room,
    joining and then leaving puts the adapter back exactly as it was; the
    two counts announced are the old size plus one, then the old size. *)
Theorem join_leave_round_trip (a : Adapter) (sid wishlistId : string) :
  reachable a ->
  let room := "wishlist:" ++ wishlistId in
  let j1 := Presence.join_wishlist sid wishlistId a in
  let j2 := Presence.join_wishlist sid wishlistId (fst j1) in
  (fst j2 = fst j1 /\ snd j2 = snd j1) /\
  (is_Some (sids a !! sid) -> sid ∉ members a room ->
     let l := Presence.leave_wishlist sid wishlistId (fst j1) in
     fst l = a /\
     p_payload <$> snd j1 = [Viewers (Z.of_nat (size (members a room)) + 1)] /\
     p_payload <$> snd l = [Viewers (Z.of_nat (size (members a room)))]).
Proof.
  intros Hreach room j1 j2.
  pose proof (reachable_coherent a Hreach) as [Hiff Hne].
  assert (Hidem : fst j2 = fst j1).
  { unfold j2, j1, Presence.join_wishlist. cbn [fst].
    apply adapter_eq; unfold addAll; cbn [rooms sids].
    - rewrite lookup_insert_eq, insert_insert_eq. cbn [default]. f_equal. set_solver.
    - rewrite lookup_insert_eq, insert_insert_eq. cbn [default]. f_equal. set_solver. }
  split.
  - split; [exact Hidem|].
    destruct (join_wishlist_packet sid wishlistId (fst j1)) as [_ Hp2].
    destruct (join_wishlist_packet sid wishlistId a) as [_ Hp1].
    fold j1 in Hp1. fold j2 in Hp2. rewrite Hp2, Hp1.
    fold j2. by rewrite Hidem.
  - intros [rs Hrs] Hnotin l.
    assert (Hroom : room ∉ rs).
    { intros Hin. apply Hnotin, Hiff. unfold socketRooms. by rewrite Hrs. }
    destruct (join_wishlist_packet sid wishlistId a) as [Hm1 Hp1]. fold j1 room in Hm1, Hp1.
    destruct (leave_wishlist_packet sid wishlistId (fst j1)) as [Hm2 Hp2].
    fold l room in Hm2, Hp2.
    split; [|split].
    + unfold l, j1, Presence.leave_wishlist, Presence.join_wishlist. cbn [fst].
      fold room. apply adapter_eq; unfold del, addAll; cbn [rooms sids].
      * unfold _del. rewrite lookup_insert_eq. cbn zeta.
        assert (Hback : ({[sid]} ∪ default ∅ (rooms a !! room)) ∖ {[sid]}
                        = default ∅ (rooms a !! room)).
        { unfold members in Hnotin. set_solver. }
        rewrite Hback.
        destruct (rooms a !! room) as [m|] eqn:Hm; cbn [default].
        -- rewrite decide_False.
           ++ rewrite insert_insert_eq. by apply insert_id.
           ++ intros Hsize. apply size_empty_iff in Hsize.
              apply leibniz_equiv in Hsize. by apply (Hne room m).
        -- rewrite decide_True by apply size_empty.
           rewrite delete_insert_eq. by apply delete_id.
      * rewrite lookup_insert_eq, insert_insert_eq. rewrite Hrs. cbn [default].
        match goal with |- <[sid := ?X]> _ = _ =>
          assert (X = rs) as -> by set_solver end.
        by apply insert_id.
    + rewrite Hp1, Hm1. cbn [fmap list_fmap p_payload to_emit]. do 2 f_equal.
      rewrite size_union by set_solver. rewrite size_singleton. lia.
    + rewrite Hp2, Hm2, Hm1. cbn [fmap list_fmap p_payload to_emit]. do 4 f_equal.
      set_solver.
Qed.

Lemma join_leave_round_trip_witness :
  let a := Scenario.two_viewers in
  let j1 := Presence.join_wishlist "B" "w1" a in
  let l := Presence.leave_wishlist "B" "w1" (fst j1) in
  reachable a /\ is_Some (sids a !! "B") /\ ("B" ∉ members a ("wishlist:" ++ "w1")) /\
  fst l = a /\
  p_payload <$> snd j1 = [Viewers (Z.of_nat (size (members a ("wishlist:" ++ "w1"))) + 1)] /\
  p_payload <$> snd l = [Viewers (Z.of_nat (size (members a ("wishlist:" ++ "w1"))))].
Proof.
  intros a j1 l.
  assert (H : reachable a).
  { apply (reachable_step (JoinWishlist "B" "w2")).
    apply (reachable_step (Connect "B")).
    apply (reachable_step (JoinWishlist "A" "w1")).
    apply (reachable_step (Connect "A")).
    apply reachable_start. }
  assert (Hs : is_Some (sids a !! "B")) by compute_done.
  assert (Hn : "B" ∉ members a ("wishlist:" ++ "w1")) by compute_done.
  split; [exact H|]. split; [exact Hs|]. split; [exact Hn|].
  apply (proj2 (join_leave_round_trip a "B" "w1" H) Hs Hn).
Defined.

(** X15. After a disconnect the socket is gone from the adapter: it has no
    rooms, it is a member of no room, and no event, broadcast or sent to a
    room, is addressed to it any more.  Every other socket keeps exactly
    the rooms and memberships it had. *)
Theorem disconnect_removes_everywhere (a : Adapter) (sid : string) :
  reachable a ->
  let a' := fst (Presence.disconnect sid a) in
  sids a' !! sid = None /\
  socketRooms sid a' = ∅ /\
  (forall room, sid ∉ members a' room) /\
  (forall sid' room, sid' <> sid ->
     (sid' ∈ members a' room <-> sid' ∈ members a room) /\
     socketRooms sid' a' = socketRooms sid' a) /\
  (forall room event payload,
     (sid ∉ p_to (emit a' event payload)) /\
     (sid ∉ p_to (to_emit a' room event payload))).
Proof.
  intros Hreach a'. unfold a', Presence.disconnect. cbn [fst].
  pose proof (reachable_coherent a Hreach) as [Hiff _].
  assert (Hgone : sids (delAll sid a) !! sid = None).
  { unfold delAll. destruct (sids a !! sid) as [rs|] eqn:Hrs; simpl; [|done].
    apply lookup_delete_eq. }
  assert (Hnot : forall room, sid ∉ members (delAll sid a) room).
  { intros room. rewrite members_delAll. case_decide as Hin; [set_solver|].
    intros Hmem. by apply Hin, Hiff. }
  split; [exact Hgone|]. split.
  { by rewrite socketRooms_delAll, decide_True. }
  split; [exact Hnot|]. split.
  - intros sid' room Hne. split.
    + rewrite members_delAll. case_decide; set_solver.
    + by rewrite socketRooms_delAll, decide_False.
  - intros room event payload. split.
    + rewrite emit_recipients, Hgone. by intros [? ?].
    + rewrite to_emit_recipients. apply Hnot.
Qed.

Lemma disconnect_removes_everywhere_witness :
  reachable Scenario.two_viewers /\
  forall room, "A" ∉ members (fst (Presence.disconnect "A" Scenario.two_viewers)) room.
Proof.
  assert (H : reachable Scenario.two_viewers).
  { apply (reachable_step (JoinWishlist "B" "w2")).
    apply (reachable_step (Connect "B")).
    apply (reachable_step (JoinWishlist "A" "w1")).
    apply (reachable_step (Connect "A")).
    apply reachable_start. }
  split; [exact H|].
  apply (proj1 (proj2 (proj2 (disconnect_removes_everywhere Scenario.two_viewers "A" H)))).
Defined.

(** X16. Who is told the viewer count.  After a join the count goes to
    every member of the room, the socket that joined included; after a
    leave it goes to the members that remain, not to the socket that left;
    on a disconnect each count goes to the room as it still is, with the
    disconnecting socket in it.  In no case does a socket outside the room
    receive it. *)
Theorem presence_recipients (a : Adapter) (sid wishlistId : string) :
  reachable a ->
  let room := "wishlist:" ++ wishlistId in
  Forall (fun p => p_event p = "viewers:" ++ wishlistId /\
                   forall x, x ∈ p_to p <-> x = sid \/ x ∈ members a room)
         (snd (Presence.join_wishlist sid wishlistId a)) /\
  Forall (fun p => p_event p = "viewers:" ++ wishlistId /\
                   forall x, x ∈ p_to p <-> x <> sid /\ x ∈ members a room)
         (snd (Presence.leave_wishlist sid wishlistId a)) /\
  Forall (fun p => exists w', p_event p = "viewers:" ++ w' /\
                              "wishlist:" ++ w' ∈ socketRooms sid a /\
                              sid ∈ p_to p /\
                              forall x, x ∈ p_to p <-> x ∈ members a ("wishlist:" ++ w'))
         (snd (Presence.disconnect sid a)).
Proof.
  intros Hreach room.
  pose proof (reachable_sound a Hreach) as Hsound.
  split; [|split].
  - destruct (join_wishlist_packet sid wishlistId a) as [Hm ->].
    constructor; [|constructor]. split; [done|]. intros x.
    rewrite to_emit_recipients. fold (members (Presence.join_wishlist sid wishlistId a).1
                                        ("wishlist:" ++ wishlistId)).
    rewrite Hm. set_solver.
  - destruct (leave_wishlist_packet sid wishlistId a) as [Hm ->].
    constructor; [|constructor]. split; [done|]. intros x.
    rewrite to_emit_recipients. fold (members (Presence.leave_wishlist sid wishlistId a).1
                                        ("wishlist:" ++ wishlistId)).
    rewrite Hm. set_solver.
  - apply Forall_forall. intros p Hp. cbn [Presence.disconnect snd] in Hp.
    apply disconnecting_packets in Hp as (w' & Hin & ->); [|done].
    exists w'. split; [done|]. split; [done|]. split.
    + apply to_emit_recipients. by apply Hsound.
    + intros x. by rewrite to_emit_recipients.
Qed.

Lemma presence_recipients_witness :
  reachable Scenario.two_viewers /\
  Forall (fun p => p_event p = "viewers:" ++ "w1" /\
                   forall x, x ∈ p_to p <->
                     x <> "A" /\ x ∈ members Scenario.two_viewers ("wishlist:" ++ "w1"))
         (snd (Presence.leave_wishlist "A" "w1" Scenario.two_viewers)).
Proof.
  assert (H : reachable Scenario.two_viewers).
  { apply (reachable_step (JoinWishlist "B" "w2")).
    apply (reachable_step (Connect "B")).
    apply (reachable_step (JoinWishlist "A" "w1")).
    apply (reachable_step (Connect "A")).
    apply reachable_start. }
  split; [exact H|].
  apply (proj1 (proj2 (presence_recipients Scenario.two_viewers "A" "w1" H))).
Defined.

(** ** The rate limiter in front of the mutation routes *)

Lemma key_inj (prefix ip ip' : string) :
  prefix ++ ":" ++ ip = prefix ++ ":" ++ ip' -> ip = ip'.
Proof.
  induction prefix as [|c prefix IH]; intros H.
  - injection H as H. exact H.
  - injection H as H. by apply IH.
Qed.

Lemma cleanup_lookup (now : Z) (buckets : gmap string RateLimit.Bucket) (key : string) :
  RateLimit.cleanupExpiredBuckets now buckets !! key
  = match buckets !! key with
    | Some b => if (RateLimit.resetAt b <=? now)%Z then None else Some b
    | None => None
    end.
Proof.
  unfold RateLimit.cleanupExpiredBuckets.
  destruct (buckets !! key) as [b|] eqn:Hb.
  - destruct (Z.leb_spec (RateLimit.resetAt b) now) as [Hle|Hgt].
    + apply map_lookup_filter_None. right. intros b' Hb'. simpl.
      rewrite Hb in Hb'. injection Hb' as <-. tauto.
    + apply map_lookup_filter_Some. split; [done|]. simpl. lia.
  - apply map_lookup_filter_None. by left.
Qed.

Lemma limiter_other_key (options : RateLimit.RateLimitOptions) (now : Z) (ip : string)
    (buckets : gmap string RateLimit.Bucket) (key : string) :
  key <> RateLimit.keyPrefix options ++ ":" ++ ip ->
  snd (RateLimit.createRateLimiter options now ip buckets) !! key
  = RateLimit.cleanupExpiredBuckets now buckets !! key.
Proof.
  intros Hne. unfold RateLimit.createRateLimiter. cbn zeta.
  repeat case_match; simpl; try done; by rewrite lookup_insert_ne.
Qed.

Lemma limiter_live_bucket (options : RateLimit.RateLimitOptions) (now : Z) (ip : string)
    (buckets : gmap string RateLimit.Bucket) (b : RateLimit.Bucket) :
  buckets !! (RateLimit.keyPrefix options ++ ":" ++ ip) = Some b ->
  (now < RateLimit.resetAt b)%Z ->
  RateLimit.createRateLimiter options now ip buckets
  = if (RateLimit.max options <=? RateLimit.count b)%Z
    then (RateLimit.TooMany
            (Z.max (RateLimit.ceil_seconds (RateLimit.resetAt b - now)) 1)
            (RateLimit.message options),
          RateLimit.cleanupExpiredBuckets now buckets)
    else (RateLimit.Next,
          <[RateLimit.keyPrefix options ++ ":" ++ ip :=
              {| RateLimit.count := RateLimit.count b + 1;
                 RateLimit.resetAt := RateLimit.resetAt b |}]>
            (RateLimit.cleanupExpiredBuckets now buckets)).
Proof.
  intros Hb Hlive. unfold RateLimit.createRateLimiter. cbn zeta.
  rewrite cleanup_lookup, Hb.
  rewrite (proj2 (Z.leb_gt _ _)) by lia. by rewrite (proj2 (Z.leb_gt _ _)) by lia.
Qed.

Lemma limiter_fresh (options : RateLimit.RateLimitOptions) (now : Z) (ip : string)
    (buckets : gmap string RateLimit.Bucket) :
  (forall b, buckets !! (RateLimit.keyPrefix options ++ ":" ++ ip) = Some b ->
             (RateLimit.resetAt b <= now)%Z) ->
  RateLimit.createRateLimiter options now ip buckets
  = (RateLimit.Next,
     <[RateLimit.keyPrefix options ++ ":" ++ ip :=
         {| RateLimit.count := 1;
            RateLimit.resetAt := now + RateLimit.windowMs options |}]>
       (RateLimit.cleanupExpiredBuckets now buckets)).
Proof.
  intros Hexp. unfold RateLimit.createRateLimiter. cbn zeta.
  rewrite cleanup_lookup.
  destruct (buckets !! (RateLimit.keyPrefix options ++ ":" ++ ip)) as [b|]; [|done].
  by rewrite (proj2 (Z.leb_le _ _)) by auto.
Qed.

Lemma admitted_live (options : RateLimit.RateLimitOptions) (ip : string)
    (reqs : list (Z * string)) (buckets : gmap string RateLimit.Bucket)
    (b : RateLimit.Bucket) :
  buckets !! (RateLimit.keyPrefix options ++ ":" ++ ip) = Some b ->
  Forall (fun r => (fst r < RateLimit.resetAt b)%Z) reqs ->
  (Z.of_nat (RateLimit.admitted options ip reqs buckets)
   <= Z.max 0 (RateLimit.max options - RateLimit.count b))%Z.
Proof.
  revert buckets b. induction reqs as [|[now from] rest IH]; intros buckets b Hb Hall.
  { simpl. lia. }
  apply Forall_cons in Hall as [Hnow Hrest]. simpl in Hnow.
  cbn [RateLimit.admitted].
  destruct (String.eqb_spec from ip) as [->|Hne].
  - rewrite (limiter_live_bucket _ _ _ _ b) by done.
    destruct (Z.leb_spec (RateLimit.max options) (RateLimit.count b)) as [Hfull|Hroom].
    + specialize (IH (RateLimit.cleanupExpiredBuckets now buckets) b).
      rewrite cleanup_lookup, Hb in IH.
      rewrite (proj2 (Z.leb_gt _ _)) in IH by lia.
      specialize (IH eq_refl Hrest). lia.
    + specialize (IH (<[RateLimit.keyPrefix options ++ ":" ++ ip :=
                          {| RateLimit.count := RateLimit.count b + 1;
                             RateLimit.resetAt := RateLimit.resetAt b |}]>
                        (RateLimit.cleanupExpiredBuckets now buckets))
                     {| RateLimit.count := RateLimit.count b + 1;
                        RateLimit.resetAt := RateLimit.resetAt b |}).
      rewrite lookup_insert_eq in IH. specialize (IH eq_refl Hrest). simpl in IH. lia.
  - destruct (RateLimit.createRateLimiter options now from buckets) as [out buckets']
      eqn:Hrun.
    assert (Hkeep : buckets' !! (RateLimit.keyPrefix options ++ ":" ++ ip) = Some b).
    { pose proof (limiter_other_key options now from buckets
                    (RateLimit.keyPrefix options ++ ":" ++ ip)) as Hother.
      rewrite Hrun in Hother. simpl in Hother. rewrite Hother.
      - rewrite cleanup_lookup, Hb. by rewrite (proj2 (Z.leb_gt _ _)) by lia.
      - intros Heq. apply key_inj in Heq. congruence. }
    specialize (IH buckets' b Hkeep Hrest). lia.
Qed.

(** X17. The limiter's bound.  From the request that opens a bucket for a
    client (no bucket, or an expired one) until that bucket's reset time,
    at most [max] requests of that client are let through, whatever other
    clients do in between: the opening request always passes, and of those
    that follow before the reset at most [max - 1] do. *)
Theorem limiter_admits_at_most_max
    (options : RateLimit.RateLimitOptions) (ip : string) (now : Z)
    (reqs : list (Z * string)) (buckets : gmap string RateLimit.Bucket) :
  (forall b, buckets !! (RateLimit.keyPrefix options ++ ":" ++ ip) = Some b ->
             (RateLimit.resetAt b <= now)%Z) ->
  Forall (fun r => (fst r < now + RateLimit.windowMs options)%Z) reqs ->
  let r := RateLimit.createRateLimiter options now ip buckets in
  fst r = RateLimit.Next /\
  (Z.of_nat (RateLimit.admitted options ip reqs (snd r))
   <= Z.max 0 (RateLimit.max options - 1))%Z /\
  (Z.of_nat (RateLimit.admitted options ip ((now, ip) :: reqs) buckets)
   <= Z.max 1 (RateLimit.max options))%Z.
Proof.
  intros Hexp Hall r. unfold r.
  assert (Hbound :
    (Z.of_nat (RateLimit.admitted options ip reqs
                 (snd (RateLimit.createRateLimiter options now ip buckets)))
     <= Z.max 0 (RateLimit.max options - 1))%Z).
  { rewrite limiter_fresh by done. cbn [snd].
    apply (admitted_live options ip reqs _
             {| RateLimit.count := 1;
                RateLimit.resetAt := now + RateLimit.windowMs options |}).
    - apply lookup_insert_eq.
    - exact Hall. }
  split; [by rewrite limiter_fresh|]. split; [exact Hbound|].
  cbn [RateLimit.admitted].
  destruct (RateLimit.createRateLimiter options now ip buckets) as [out buckets'] eqn:Hrun.
  rewrite String.eqb_refl. simpl in Hbound. destruct out; lia.
Qed.

Lemma limiter_admits_at_most_max_witness :
  let reqs := [(10%Z, "1.2.3.4"); (20%Z, "5.6.7.8"); (59999%Z, "1.2.3.4")] in
  Forall (fun r => (fst r < 0 + RateLimit.windowMs RateLimit.mutationLimiter)%Z) reqs /\
  (Z.of_nat (RateLimit.admitted RateLimit.mutationLimiter "1.2.3.4"
               ((0%Z, "1.2.3.4") :: reqs) ∅)
   <= Z.max 1 (RateLimit.max RateLimit.mutationLimiter))%Z.
Proof.
  intros reqs.
  assert (Hall : Forall (fun r => (fst r < 0 + RateLimit.windowMs
                                               RateLimit.mutationLimiter)%Z) reqs).
  { repeat constructor; simpl; lia. }
  split; [exact Hall|].
  apply (proj2 (proj2 (limiter_admits_at_most_max RateLimit.mutationLimiter "1.2.3.4" 0
                         reqs ∅ ltac:(intros b; by rewrite lookup_empty) Hall))).
Defined.

Lemma ceil_seconds_covers (ms : Z) : (ms <= 1000 * RateLimit.ceil_seconds ms)%Z.
Proof.
  unfold RateLimit.ceil_seconds.
  pose proof (Z.mul_div_le (- ms) 1000 ltac:(lia)). lia.
Qed.

(** X18. A refused request.  The limiter answers 429 only for a client
    whose live bucket has reached [max]; the refusal changes no count; its
    [Retry-After] is at least one second and is enough: it reaches the
    bucket's reset time, and the same client coming back after that many
    seconds is let through. *)
Theorem limiter_retry_after_is_enough
    (options : RateLimit.RateLimitOptions) (now : Z) (ip : string)
    (buckets : gmap string RateLimit.Bucket) (retryAfter : Z) (msg : string) :
  fst (RateLimit.createRateLimiter options now ip buckets)
  = RateLimit.TooMany retryAfter msg ->
  let key := RateLimit.keyPrefix options ++ ":" ++ ip in
  let buckets' := snd (RateLimit.createRateLimiter options now ip buckets) in
  msg = RateLimit.message options /\
  (1 <= retryAfter)%Z /\
  buckets' = RateLimit.cleanupExpiredBuckets now buckets /\
  (exists b, buckets !! key = Some b /\ buckets' !! key = Some b /\
             (RateLimit.max options <= RateLimit.count b)%Z /\
             (now < RateLimit.resetAt b <= now + 1000 * retryAfter)%Z) /\
  (forall t, (now + 1000 * retryAfter <= t)%Z ->
             fst (RateLimit.createRateLimiter options t ip buckets') = RateLimit.Next).
Proof.
  intros Hout key buckets'.
  destruct (buckets !! key) as [b|] eqn:Hb.
  2: { unfold key in Hb. rewrite limiter_fresh in Hout; [done|].
       intros b. by rewrite Hb. }
  destruct (Z.leb_spec (RateLimit.resetAt b) now) as [Hexp|Hlive].
  { unfold key in Hb. rewrite limiter_fresh in Hout; [done|].
    intros b'. rewrite Hb. by intros [= <-]. }
  unfold buckets'. unfold key in Hb.
  rewrite (limiter_live_bucket _ _ _ _ b) in Hout |- * by done.
  destruct (Z.leb_spec (RateLimit.max options) (RateLimit.count b)) as [Hfull|Hroom];
    [|done].
  simpl in Hout. injection Hout as <- <-. cbn [snd].
  pose proof (ceil_seconds_covers (RateLimit.resetAt b - now)) as Hceil.
  assert (Hkept : RateLimit.cleanupExpiredBuckets now buckets !! key = Some b).
  { unfold key. rewrite cleanup_lookup, Hb. by rewrite (proj2 (Z.leb_gt _ _)) by lia. }
  split; [done|]. split; [lia|]. split; [done|]. split.
  { exists b. split; [done|]. split; [exact Hkept|]. lia. }
  intros t Ht. rewrite limiter_fresh; [done|].
  intros b'. fold key. rewrite Hkept. intros [= <-]. lia.
Qed.

Lemma limiter_retry_after_is_enough_witness :
  let full : gmap string RateLimit.Bucket :=
    {[ "auth:1.2.3.4" := {| RateLimit.count := 25; RateLimit.resetAt := 60000 |} ]} in
  fst (RateLimit.createRateLimiter RateLimit.authLimiter 58500 "1.2.3.4" full)
  = RateLimit.TooMany 2 "Too many auth attempts, please try again shortly" /\
  forall t, (58500 + 1000 * 2 <= t)%Z ->
    fst (RateLimit.createRateLimiter RateLimit.authLimiter t "1.2.3.4"
           (snd (RateLimit.createRateLimiter RateLimit.authLimiter 58500 "1.2.3.4" full)))
    = RateLimit.Next.
Proof.
  intros full.
  assert (H : fst (RateLimit.createRateLimiter RateLimit.authLimiter 58500 "1.2.3.4" full)
              = RateLimit.TooMany 2 "Too many auth attempts, please try again shortly")
    by (vm_compute; reflexivity).
  split; [exact H|].
  apply (proj2 (proj2 (proj2 (proj2
           (limiter_retry_after_is_enough RateLimit.authLimiter 58500 "1.2.3.4" full 2
              "Too many auth attempts, please try again shortly" H))))).
Defined.

(** X19. The three limiters share one map of buckets but never a bucket:
    whatever addresses the clients present, a request counted by one
    limiter leaves the buckets of the other two as they are, apart from
    dropping the expired ones. *)
Theorem limiters_keep_separate_counts
    (now : Z) (ip ip' : string) (buckets : gmap string RateLimit.Bucket) :
  let after o := snd (RateLimit.createRateLimiter o now ip buckets) in
  let key o := RateLimit.keyPrefix o ++ ":" ++ ip' in
  let kept := RateLimit.cleanupExpiredBuckets now buckets in
  (after RateLimit.mutationLimiter !! key RateLimit.authLimiter
   = kept !! key RateLimit.authLimiter /\
   after RateLimit.mutationLimiter !! key RateLimit.defaultApiLimiter
   = kept !! key RateLimit.defaultApiLimiter) /\
  (after RateLimit.authLimiter !! key RateLimit.mutationLimiter
   = kept !! key RateLimit.mutationLimiter /\
   after RateLimit.authLimiter !! key RateLimit.defaultApiLimiter
   = kept !! key RateLimit.defaultApiLimiter) /\
  (after RateLimit.defaultApiLimiter !! key RateLimit.mutationLimiter
   = kept !! key RateLimit.mutationLimiter /\
   after RateLimit.defaultApiLimiter !! key RateLimit.authLimiter
   = kept !! key RateLimit.authLimiter).
Proof.
  intros after key kept. unfold after, key, kept.
  repeat split; apply limiter_other_key; intros H; injection H as H; discriminate.
Qed.

(** ** Errors on their way out *)

(** X20. [toAppError] followed by [errorHandler].  An [AppError] keeps its
    own status, code and message whatever the fallback (so the 404 of a
    missing or private wishlist is still a 404 after the route's catch
    block); a [ZodError] is answered 400 VALIDATION_ERROR with its issues;
    any other [Error] is answered with the fallback's status and code but
    with the error's own message; only a thrown non-error gets the
    fallback's message.  Wrapping twice is the same as wrapping once, and
    what comes out of the wrapping is an [AppError] or the [ZodError] that
    went in, so the handler's generic 500 branch never answers for it. *)
Theorem toAppError_then_errorHandler
    (error : AppErrors.Thrown) (fallback fallback' : AppErrors.Fallback)
    (requestId : option string) :
  let answer := AppErrors.errorHandler (AppErrors.toAppError error fallback) requestId in
  AppErrors.toAppError (AppErrors.toAppError error fallback) fallback'
  = AppErrors.toAppError error fallback /\
  AppErrors.e_requestId (snd answer) = requestId /\
  match error with
  | AppErrors.ThrownAppError e =>
      answer = AppErrors.errorHandler error requestId /\
      fst answer = WishlistRoutes.statusCode e /\
      AppErrors.e_code (snd answer) = WishlistRoutes.code e /\
      AppErrors.e_message (snd answer) = WishlistRoutes.err_message e
  | AppErrors.ThrownZodError issues =>
      fst answer = 400%Z /\
      AppErrors.e_code (snd answer) = "VALIDATION_ERROR" /\
      AppErrors.e_details (snd answer) = Some issues
  | AppErrors.ThrownError message =>
      fst answer = AppErrors.f_statusCode fallback /\
      AppErrors.e_code (snd answer) = AppErrors.f_code fallback /\
      AppErrors.e_message (snd answer) = message
  | AppErrors.ThrownOther =>
      fst answer = AppErrors.f_statusCode fallback /\
      AppErrors.e_code (snd answer) = AppErrors.f_code fallback /\
      AppErrors.e_message (snd answer) = AppErrors.f_message fallback
  end /\
  ((exists e, AppErrors.toAppError error fallback = AppErrors.ThrownAppError e) \/
   (exists issues, error = AppErrors.ThrownZodError issues /\
                   AppErrors.toAppError error fallback = error)).
Proof.
  intros answer. unfold answer.
  destruct error as [e|issues|message|]; simpl.
  - repeat split; try done. left. by exists e.
  - repeat split; try done. right. by exists issues.
  - repeat split; try done. left. by eexists.
  - repeat split; try done. left. by eexists.
Qed.

(** The 404 of [GET /wishlists/:id] after the route's catch block. *)
Example wishlist_not_found_survives_catch (requestId : option string) :
  AppErrors.errorHandler
    (AppErrors.toAppError (AppErrors.ThrownAppError WishlistRoutes.not_found)
                          AppErrors.wishlist_fetch_failed) requestId
  = (404%Z, {| AppErrors.e_code := "WISHLIST_NOT_FOUND";
               AppErrors.e_message := "Wishlist not found";
               AppErrors.e_details := None;
               AppErrors.e_requestId := requestId |}).
Proof. reflexivity. Qed.

(** ** Optional authentication *)

Lemma split_free (sep : Ascii.ascii) (s : string) :
  OptionalAuth.free_of sep s = true -> OptionalAuth.split sep s = [s].
Proof.
  induction s as [|c s IH]; simpl; [done|].
  intros [Hc Hs]%andb_true_iff. apply negb_true_iff in Hc.
  by rewrite Hc, IH.
Qed.

Lemma split_append (sep : Ascii.ascii) (s t : string) :
  OptionalAuth.free_of sep s = true ->
  OptionalAuth.split sep (s ++ String sep t) = s :: OptionalAuth.split sep t.
Proof.
  induction s as [|c s IH]; intros Hfree.
  - change (EmptyString ++ String sep t) with (String sep t).
    simpl. by rewrite Ascii.eqb_refl.
  - simpl in Hfree. apply andb_true_iff in Hfree as [Hc Hs].
    apply negb_true_iff in Hc.
    change (String c s ++ String sep t) with (String c (s ++ String sep t)).
    simpl. by rewrite Hc, IH.
Qed.

Lemma truthy_cons (c : Ascii.ascii) (s : string) : Js.truthy (String c s) = true.
Proof. done. Qed.

(** X21. What [optionalAuth] makes of the Authorization header.  Without a
    header the request goes on as it came.  With a header of the form
    "<scheme> <token>", the scheme being any word, not only "Bearer", the
    request goes on as the user [jwt.verify] decodes from the token, and as
    a guest when the token does not verify, even if a user was set before.
    With a header of one word there is no token and the request goes on
    as it came. *)
Theorem optionalAuth_decides_by_second_word
    (verify : string -> option UserPayload) (user : option UserPayload) :
  OptionalAuth.optionalAuth verify None user = user /\
  (forall scheme token rest,
     OptionalAuth.free_of " " scheme = true ->
     OptionalAuth.free_of " " token = true ->
     token <> "" ->
     let header := scheme ++ String " " token in
     OptionalAuth.optionalAuth verify (Some header) user = verify token /\
     OptionalAuth.optionalAuth verify (Some (header ++ String " " rest)) user
     = verify token /\
     (verify token = None -> OptionalAuth.optionalAuth verify (Some header) user = None)) /\
  (forall word,
     OptionalAuth.free_of " " word = true ->
     OptionalAuth.optionalAuth verify (Some word) user = user).
Proof.
  split; [done|]. split.
  - intros scheme token rest Hscheme Htoken Hne header.
    assert (Htruthy : Js.truthy token = true) by (destruct token; done).
    assert (Hheader : Js.truthy header = true).
    { unfold header. destruct scheme; apply truthy_cons. }
    assert (H1 : OptionalAuth.optionalAuth verify (Some header) user = verify token).
    { unfold OptionalAuth.optionalAuth, OptionalAuth.token_of. rewrite Hheader.
      unfold header. rewrite split_append, split_free by done. simpl.
      by rewrite Htruthy. }
    split; [exact H1|]. split; [|by intros <-].
    unfold OptionalAuth.optionalAuth, OptionalAuth.token_of.
    assert (Js.truthy (header ++ String " " rest) = true) as ->.
    { unfold header. destruct scheme; apply truthy_cons. }
    unfold header.
    replace ((scheme ++ String " " token) ++ String " " rest)
      with (scheme ++ String " " (token ++ String " " rest)).
    2: { clear. induction scheme as [|c s IH]; [done|].
         change (String c (s ++ String " " (token ++ String " " rest))
                 = String c ((s ++ String " " token) ++ String " " rest)).
         by rewrite IH. }
    rewrite split_append by done. rewrite split_append by done. simpl.
    by rewrite Htruthy.
  - intros word Hword.
    unfold OptionalAuth.optionalAuth, OptionalAuth.token_of.
    destruct (Js.truthy word) eqn:Ht.
    + by rewrite split_free.
    + destruct word; [done|]. by rewrite truthy_cons in Ht.
Qed.

Lemma optionalAuth_decides_by_second_word_witness :
  let verify := fun t : string =>
    if String.eqb t "good" then Some Scenario.alice else None in
  OptionalAuth.optionalAuth verify (Some ("Bearer" ++ String " " "good")) None
  = Some Scenario.alice /\
  OptionalAuth.optionalAuth verify (Some ("Token" ++ String " " "bad"))
                            (Some Scenario.alice) = None.
Proof.
  intros verify.
  pose proof (proj1 (proj2 (optionalAuth_decides_by_second_word verify None))
                "Bearer" "good" "" eq_refl eq_refl ltac:(discriminate)) as (H1 & _).
  pose proof (proj1 (proj2 (optionalAuth_decides_by_second_word verify
                              (Some Scenario.alice)))
                "Token" "bad" "" eq_refl eq_refl ltac:(discriminate)) as (_ & _ & H2).
  split; [exact H1|]. apply H2. reflexivity.
Defined.
